(** * Book scraper and parsing service: a verification development

    The repository holds a scraping client ([application/main.py]) and a
    gRPC parsing service ([parser_service.py]).  This file embeds their
    control logic in Rocq and proves (or refutes) the properties the design
    document states about them.

    Conventions of the embedding.
    - Python exceptions are values of [exn]; a function that may raise
      returns [exn + A] ([inl] is the raised exception).
    - Python [int] is [Z]; [str] is [string] (the UTF-8 bytes); a [dict]
      read from JSON is an association list; the [set] of seen UPCs is a
      [gset string].
    - What the code obtains from libraries (BeautifulSoup selectors, [float],
      [urljoin], the network) is taken at the libraries' interface: a page is
      represented by what the selectors used in the code return on it, and the
      remaining primitives are fields of the class [Runtime].
    - Coroutines are cut at their suspension points ([await], [async with]);
      the code between two suspension points runs without interleaving on the
      single-threaded event loop. *)

From Stdlib Require Import ZArith QArith Lia.
From stdpp Require Import base option list strings gmap relations.

Set Warnings "-register-all".
Local Open Scope Z_scope.

(** ** Python values shared by client and service *)

(** [grpc.StatusCode]. *)
Inductive StatusCode :=
| OK | CANCELLED | UNKNOWN | INVALID_ARGUMENT | DEADLINE_EXCEEDED | NOT_FOUND
| ALREADY_EXISTS | PERMISSION_DENIED | RESOURCE_EXHAUSTED | FAILED_PRECONDITION
| ABORTED | OUT_OF_RANGE | UNIMPLEMENTED | INTERNAL | UNAVAILABLE | DATA_LOSS
| UNAUTHENTICATED.

Global Instance StatusCode_eq_dec : EqDecision StatusCode.
Proof. solve_decision. Defined.

(** The exceptions the two programs can meet.  [CancelledError] derives from
    [BaseException] only, so that [except Exception] does not catch it. *)
Inductive exn :=
| ValueError (msg : string)
| AttributeError (msg : string)
| TypeError (msg : string)
| KeyError (key : string)
| OSError (msg : string)
| OverflowError (msg : string)
| RuntimeError (msg : string)
| AbortError (msg : string)
| AioRpcError (code : StatusCode) (details : string)
| ClientError (msg : string)
| CancelledError.

Definition is_Exception (e : exn) : bool :=
  match e with CancelledError => false | _ => true end.

Definition is_AioRpcError (e : exn) : bool :=
  match e with AioRpcError _ _ => true | _ => false end.

(** [repr] of a [str] free of quotes and escapes. *)
Definition repr_str (s : string) : string := "'" +:+ s +:+ "'".

(** [repr] of a list of such strings, as an f-string prints it. *)
Definition repr_list (l : list string) : string :=
  "[" +:+ String.concat ", " (repr_str <$> l) +:+ "]".

(** [str(e)]. *)
Definition str_exn (e : exn) : string :=
  match e with
  | ValueError m | AttributeError m | TypeError m | OSError m
  | OverflowError m | RuntimeError m | AbortError m | ClientError m => m
  | KeyError k => repr_str k
  | AioRpcError _ d => d
  | CancelledError => ""
  end.

(** Truth value of a [str]. *)
Definition truthy (s : string) : bool := negb (String.eqb s "").

(** Truth value of a [str]-or-[None]. *)
Definition truthy_opt (o : option string) : bool :=
  match o with Some s => truthy s | None => false end.

(** Sequencing of computations that may raise. *)
Definition bind_exn {A B} (m : exn + A) (k : A → exn + B) : exn + B :=
  match m with inl e => inl e | inr a => k a end.

Notation "'let!' x ':=' m 'in' k" := (bind_exn m (λ x, k))
  (at level 10, x pattern, m at level 100, k at level 200).

(** Library primitives whose results the code only passes around. *)
Class Runtime := {
  (** Python's [float] type. *)
  float : Type;
  (** [float(text)]: the value, or the message of the [ValueError]. *)
  py_float : string → string + float;
  (** [text.strip()]. *)
  py_strip : string → string;
  (** [urllib.parse.urljoin(base, url)]: the joined URL, or the message of
      the [ValueError] it raises on a malformed one. *)
  urljoin : string → string → string + string;
}.

(** ** Data model *)

Section data.
Context `{RT : Runtime}.

(** A value decoded by [json.loads]: [None], [bool], [int], [float], [str],
    [list], [dict] (insertion-ordered). *)
Inductive json :=
| JNull
| JBool (b : bool)
| JInt (n : Z)
| JFloat (x : float)
| JStr (s : string)
| JList (l : list json)
| JDict (d : list (string * json)).

(** [d.get(k)]: the value bound to [k], [None] when there is none. *)
Fixpoint dict_get (d : list (string * json)) (k : string) : option json :=
  match d with
  | [] => None
  | (k', v) :: d' => if String.eqb k' k then Some v else dict_get d' k
  end.

(** [v == s] for a value [v] that is a JSON value or [None] and a [str] [s]:
    only an equal [str] compares equal. *)
Definition eq_str (v : option json) (s : string) : bool :=
  match v with Some (JStr s') => String.eqb s' s | _ => false end.

(** [type(v).__name__]. *)
Definition type_name (v : json) : string :=
  match v with
  | JNull => "NoneType" | JBool _ => "bool" | JInt _ => "int"
  | JFloat _ => "float" | JStr _ => "str" | JList _ => "list"
  | JDict _ => "dict"
  end.

(** Lists and dicts are the JSON values a [set] refuses. *)
Definition hashable (v : json) : bool :=
  match v with JList _ | JDict _ => false | _ => true end.

(** A JSON file on disk: absent, present but failing to read or decode, or
    holding a JSON document. *)
Inductive file :=
| NoFile
| Unreadable
| Content (j : json).

(** What [Path.write_text] does on one call: it replaces the content, or it
    raises and leaves the file in some state. *)
Inductive disk_write :=
| WriteOk
| WriteRaises (e : exn) (remains : file).

(** The dict [parse_product_page] returns (and the fields of the protobuf
    [Book] message built from it). *)
Record Book := {
  name : string;
  availability : string;
  upc : string;
  price_excl_tax : float;
  tax : float;
}.

(** A [Book] dict as a JSON object, keys in the order of the dict literal. *)
Definition json_of_book (b : Book) : json :=
  JDict [("name", JStr (name b)); ("availability", JStr (availability b));
         ("upc", JStr (upc b)); ("price_excl_tax", JFloat (price_excl_tax b));
         ("tax", JFloat (tax b))].

(** *** Pages, as the selectors see them *)

(** The [<a>] below a listing entry's [<h3>], with the two attributes read. *)
Record a_tag := { a_title : option string; a_href : option string }.

(** An [article.product_pod]: [book.find("h3")] ([None] if absent) and,
    inside it, [.find("a")]. *)
Record product_pod := { pod_h3 : option (option a_tag) }.

(** A row of the product table: the stripped text of its [th] and [td]. *)
Record table_row := { row_th : option string; row_td : option string }.

(** [BeautifulSoup(html, "html.parser")], reduced to the queries made. *)
Record soup := {
  (** [find_all("article", class_="product_pod")] *)
  product_pods : list product_pod;
  (** [select_one("li.next a")] and its [.get("href")] *)
  li_next_a : option (option string);
  (** [select_one("div.product_main h1")] and its [get_text(strip=True)] *)
  product_main_h1 : option string;
  (** [find("p", class_="instock availability")], text joined on blanks *)
  instock_availability : option string;
  (** [find("table", class_="table table-striped")] and its [tr] rows *)
  table_striped : option (list table_row);
}.

End data.

(** ** The parsing service ([parser_service.py]) *)

Section service.
Context `{RT : Runtime}.

(** [text.replace("£", "")]: the sign is the byte pair C2 A3 in UTF-8. *)
Fixpoint remove_pound (text : string) : string :=
  match text with
  | String c1 (String c2 rest as tl) =>
      if Ascii.eqb c1 (Ascii.ascii_of_nat 194) && Ascii.eqb c2 (Ascii.ascii_of_nat 163)
      then remove_pound rest
      else String c1 (remove_pound tl)
  | _ => text
  end.

(** [parse_money], lines 14-16. *)
Definition parse_money (text : string) : exn + float :=
  match py_float (py_strip (remove_pound text)) with
  | inl msg => inl (ValueError msg)
  | inr x => inr x
  end.

(** The loop of lines 36-41: later rows overwrite earlier ones. *)
Definition table_info (rows : list table_row) : gmap string string :=
  foldl (λ info row,
           match row_th row, row_td row with
           | Some th, Some td => <[th := td]> info
           | _, _ => info
           end) ∅ rows.

(** The comprehension of lines 49-53. *)
Definition missing_fields (name availability : string)
    (info : gmap string string) : list string :=
  List.filter
    (λ k,
       (String.eqb k "name" && negb (truthy name))
       || (String.eqb k "availability" && negb (truthy availability))
       || match info !! k with
          | Some v => negb (truthy v)
          | None => negb (String.eqb k "name" || String.eqb k "availability")
          end)
    ["name"; "availability"; "UPC"; "Price (excl. tax)"; "Tax"].

(** [parse_product_page], lines 19-62. *)
Definition parse_product_page (html : soup) : exn + Book :=
  let name := default "" (product_main_h1 html) in
  let availability := default "" (instock_availability html) in
  match table_striped html with
  | None => inl (ValueError "Product information table not found")
  | Some rows =>
      let info := table_info rows in
      let upc := default "" (info !! "UPC") in
      let price_excl := default "" (info !! "Price (excl. tax)") in
      let tax := default "" (info !! "Tax") in
      if negb (truthy name && truthy availability && truthy upc
               && truthy price_excl && truthy tax)
      then inl (ValueError ("Missing required fields: "
                            +:+ repr_list (missing_fields name availability info)))
      else
        let! price_excl_tax := parse_money price_excl in
        let! tax := parse_money tax in
        inr {| name := name; availability := availability; upc := upc;
               price_excl_tax := price_excl_tax; tax := tax |}
  end.

(** [load_existing_books], lines 64-72. *)
Definition load_existing_books (storage : file) : list json :=
  match storage with
  | Content (JList data) => data
  | _ => []
  end.

(** [save_books], lines 74-75. *)
Definition save_books (w : disk_write) (data : list json) (storage : file)
    : (exn + unit) * file :=
  match w with
  | WriteOk => (inr (), Content (JList data))
  | WriteRaises e remains => (inl e, remains)
  end.

(** The service object: [self.lock] (is it held?) and [self.seen_upcs]. *)
Record BookParserService := {
  lock : bool;
  seen_upcs : gset string;
}.

(** [BookParserService.__init__], lines 78-80. *)
Definition init : BookParserService := {| lock := false; seen_upcs := ∅ |}.

(** The service process: the servicer object and the store file next to it. *)
Record server := {
  self : BookParserService;
  storage : file;
}.

(** A [grpc.aio.ServicerContext]: the status the call was aborted with. *)
Record ServicerContext := { aborted : option (StatusCode * string) }.

(** [context.abort(code, details)] of [grpc.aio]: the first abort of a call
    fixes the status sent to the client and raises [AbortError]; aborting a
    call again raises [RuntimeError] and changes nothing. *)
Definition abort (context : ServicerContext) (code : StatusCode)
    (details : string) : exn * ServicerContext :=
  match aborted context with
  | Some _ => (RuntimeError "Abort already called!", context)
  | None => (AbortError "Locally aborted.",
             {| aborted := Some (code, details) |})
  end.

(** What the caller of the remote operation gets. *)
Inductive rpc_result :=
| Returned (book : Book)
| Failed (code : StatusCode) (details : string).

(** The generator of line 100, [any(b.get("upc") == upc for b in existing)]:
    it stops at the first match and raises on an element without [.get]. *)
Fixpoint any_upc (key : string) (existing : list json) : exn + bool :=
  match existing with
  | [] => inr false
  | JDict d :: rest =>
      if eq_str (dict_get d "upc") key then inr true else any_upc key rest
  | b :: _ =>
      inl (AttributeError (repr_str (type_name b)
                           +:+ " object has no attribute 'get'"))
  end.

(** Lines 99-102: reload the store, append the book unless its UPC is there,
    save. *)
Definition persist (w : disk_write) (parsed : Book) (storage : file)
    : (exn + unit) * file :=
  let existing := load_existing_books storage in
  match any_upc (upc parsed) existing with
  | inl e => (inl e, storage)
  | inr true => (inr (), storage)
  | inr false => save_books w (existing ++ [json_of_book parsed]) storage
  end.

(** The [except Exception as e] clause, lines 106-108. *)
Definition handle (e : exn) (context : ServicerContext)
    : exn * ServicerContext :=
  if is_Exception e then abort context INVALID_ARGUMENT (str_exn e)
  else (e, context).

(** Lines 87-104 once the lock is held: the duplicate check and insertion,
    then (the lock released) the persistence step and the response. *)
Definition accept (w : disk_write) (parsed : Book) (context : ServicerContext)
    (σ : server) : (exn + Book) * ServicerContext * server :=
  if decide (upc parsed ∈ seen_upcs (self σ)) then
    let '(e, context) := abort context ALREADY_EXISTS "Duplicate UPC" in
    let '(e, context) := handle e context in
    (inl e, context, σ)
  else
    let seen := {[upc parsed]} ∪ seen_upcs (self σ) in
    let '(r, storage) := persist w parsed (storage σ) in
    let σ := {| self := {| lock := lock (self σ); seen_upcs := seen |};
                storage := storage |} in
    match r with
    | inr _ => (inr parsed, context, σ)
    | inl e => let '(e, context) := handle e context in (inl e, context, σ)
    end.

(** [ParseBook], lines 82-108, run with no other call in flight.  [None]: the
    lock is held, so the call stays suspended in [lock.acquire()]. *)
Definition ParseBook (w : disk_write) (request : soup)
    (context : ServicerContext) (σ : server)
    : option ((exn + Book) * ServicerContext * server) :=
  match parse_product_page request with
  | inl e => let '(e, context) := handle e context in Some (inl e, context, σ)
  | inr parsed =>
      if lock (self σ) then None else Some (accept w parsed context σ)
  end.

(** The outcome of a call for its caller: the status of the abort if the
    call was aborted, the response if the handler returned one, and status
    UNKNOWN for any other exception. *)
Definition rpc_outcome (r : exn + Book) (context : ServicerContext)
    : rpc_result :=
  match aborted context, r with
  | Some (code, details), _ => Failed code details
  | None, inr book => Returned book
  | None, inl e => Failed UNKNOWN (str_exn e)
  end.

(** One remote call on a fresh context. *)
Definition call (w : disk_write) (request : soup) (σ : server)
    : option (rpc_result * server) :=
  match ParseBook w request {| aborted := None |} σ with
  | Some (r, context, σ') => Some (rpc_outcome r context, σ')
  | None => None
  end.

(** A restart of the service process: a new servicer object; the store file
    stays. *)
Definition restart (σ : server) : server :=
  {| self := init; storage := storage σ |}.

End service.

(** ** Concurrent calls on the event loop

    The service handles its calls as coroutines of one event loop.  A
    coroutine gives up control only where it awaits something not yet
    available: in [lock.acquire()] when the lock is held, and in
    [context.abort], which sends the status before it raises.  [ParseBook]
    has no other suspension point; in particular lines 92-104 run in one
    piece. *)

Section event_loop.
Context `{RT : Runtime}.

(** Where a [ParseBook] coroutine stands. *)
Inductive coroutine :=
| Start
| AwaitLock (parsed : Book)
| AwaitAbort (locked : bool) (code : StatusCode) (details : string)
| Finished (result : rpc_result).

(** A call: its request, what its write to the store will meet, and the
    state of its coroutine. *)
Record task := {
  request : soup;
  write : disk_write;
  at_ : coroutine;
}.

Definition set_lock (held : bool) (σ : server) : server :=
  {| self := {| lock := held; seen_upcs := seen_upcs (self σ) |};
     storage := storage σ |}.

(** The [except] clause up to the suspension inside [context.abort]. *)
Definition suspend_in_handler (e : exn) : coroutine :=
  if is_Exception e then AwaitAbort false INVALID_ARGUMENT (str_exn e)
  else Finished (Failed UNKNOWN (str_exn e)).

(** From the acquisition of the lock to the next suspension point or to the
    end of the call (lines 87-108). *)
Definition enter (w : disk_write) (parsed : Book) (σ : server)
    : coroutine * server :=
  if decide (upc parsed ∈ seen_upcs (self σ)) then
    (AwaitAbort true ALREADY_EXISTS "Duplicate UPC", set_lock true σ)
  else
    let seen := {[upc parsed]} ∪ seen_upcs (self σ) in
    let '(r, storage) := persist w parsed (storage σ) in
    let σ := {| self := {| lock := false; seen_upcs := seen |};
                storage := storage |} in
    match r with
    | inr _ => (Finished (Returned parsed), σ)
    | inl e => (suspend_in_handler e, σ)
    end.

(** Run a coroutine from where it stands to its next suspension point.
    [None]: it cannot run (it waits for the lock, or it has finished). *)
Definition resume (t : task) (σ : server) : option (coroutine * server) :=
  match at_ t with
  | Start =>
      match parse_product_page (request t) with
      | inl e => Some (suspend_in_handler e, σ)
      | inr parsed =>
          if lock (self σ) then Some (AwaitLock parsed, σ)
          else Some (enter (write t) parsed σ)
      end
  | AwaitLock parsed =>
      if lock (self σ) then None else Some (enter (write t) parsed σ)
  | AwaitAbort locked code details =>
      Some (Finished (Failed code details),
            if locked then set_lock false σ else σ)
  | Finished _ => None
  end.

(** The service process with the calls made to it in its lifetime. *)
Record system := {
  srv : server;
  tasks : list task;
}.

Definition moved (t : task) (c : coroutine) : task :=
  {| request := request t; write := write t; at_ := c |}.

(** The event loop picks any call that can run and resumes it. *)
Inductive step : system → system → Prop :=
| step_resume s i t c σ' :
    tasks s !! i = Some t →
    resume t (srv s) = Some (c, σ') →
    step s {| srv := σ'; tasks := <[i := moved t c]> (tasks s) |}.

(** A call that has not been received yet. *)
Definition incoming (cw : soup * disk_write) : task :=
  {| request := cw.1; write := cw.2; at_ := Start |}.

(** The system when its calls are still to come. *)
Definition initial (σ : server) (calls : list (soup * disk_write)) : system :=
  {| srv := σ; tasks := incoming <$> calls |}.

(** The event loop following a given schedule: at each turn the call named
    is resumed, if it can run. *)
Definition turn (i : nat) (s : system) : system :=
  match tasks s !! i with
  | Some t =>
      match resume t (srv s) with
      | Some (c, σ') =>
          {| srv := σ'; tasks := <[i := moved t c]> (tasks s) |}
      | None => s
      end
  | None => s
  end.

Definition run (schedule : list nat) (s : system) : system :=
  foldl (λ s i, turn i s) s schedule.

(** The remote operation as the client's stub sees it, the calls coming one
    after the other.  A call that would wait for the lock for ever is cut
    off as cancelled. *)
Definition remote_ParseBook (html : soup) (σ : server)
    : (exn + Book) * server :=
  match call WriteOk html σ with
  | Some (Returned book, σ') => (inr book, σ')
  | Some (Failed code details, σ') => (inl (AioRpcError code details), σ')
  | None => (inl CancelledError, σ)
  end.

(** The outcome of a call as soon as it is fixed: once the status of an
    abort is on its way, nothing changes it. *)
Definition settled (c : coroutine) : option rpc_result :=
  match c with
  | AwaitAbort _ code details => Some (Failed code details)
  | Finished r => Some r
  | _ => None
  end.

Definition outcome (t : task) : option rpc_result := settled (at_ t).

(** The status a failure in the handler is reported with. *)
Definition reported (e : exn) : rpc_result :=
  Failed (if is_Exception e then INVALID_ARGUMENT else UNKNOWN) (str_exn e).

(** The call was rejected as a duplicate. *)
Definition duplicate (r : rpc_result) : bool :=
  match r with Failed ALREADY_EXISTS _ => true | _ => false end.

(** How many more times a coroutine can be resumed, at most. *)
Definition stage (c : coroutine) : nat :=
  match c with
  | Start => 3 | AwaitLock _ => 2 | AwaitAbort _ _ _ => 1 | Finished _ => 0
  end.

(** The moves left in a system, at most. *)
Definition work (s : system) : nat :=
  sum_list_with (λ t, stage (at_ t)) (tasks s).

(** The call has run to its end. *)
Definition finished (t : task) : Prop := ∃ r, at_ t = Finished r.

Definition is_dict (v : json) : bool :=
  match v with JDict _ => true | _ => false end.

(** The call's content extracts the unique key [k]. *)
Definition extracts (html : soup) (k : string) : Prop :=
  ∃ parsed, parse_product_page html = inr parsed ∧ upc parsed = k.

(** The store holds a record with key [k]. *)
Definition stored (k : string) (storage : file) : Prop :=
  ∃ d, JDict d ∈ load_existing_books storage
       ∧ dict_get d "upc" = Some (JStr k).

(** What holds of the calls in flight at every moment of a service
    lifetime: a call waiting for the lock has parsed its request; a call
    that passed the duplicate check has its key in the seen set, and no two
    calls passed it with the same key; a returned record is the one parsed. *)
Record consistent (s : system) : Prop := {
  waiting_parsed i t p :
    tasks s !! i = Some t → at_ t = AwaitLock p →
    parse_product_page (request t) = inr p;
  returned_parsed i t book :
    tasks s !! i = Some t → outcome t = Some (Returned book) →
    parse_product_page (request t) = inr book;
  passed_seen i t p r :
    tasks s !! i = Some t → parse_product_page (request t) = inr p →
    outcome t = Some r → duplicate r = false →
    upc p ∈ seen_upcs (self (srv s));
  passed_once i j t t' p p' r r' :
    i ≠ j → tasks s !! i = Some t → tasks s !! j = Some t' →
    parse_product_page (request t) = inr p →
    parse_product_page (request t') = inr p' →
    upc p = upc p' →
    outcome t = Some r → outcome t' = Some r' →
    duplicate r = false → duplicate r' = false → False;
}.

(** What holds besides when every call of the lifetime submits the content
    [html], read as the record [p], to a service that starts in [σ] with the
    key unseen and a working disk: until the key is seen the store is as it
    was; a settled call has the record or is a duplicate; and once the key
    is seen some call has the record. *)
Record same_content (σ : server) (html : soup) (p : Book) (s : system)
    : Prop := {
  same_request :
    Forall (λ t, request t = html ∧ write t = WriteOk) (tasks s);
  same_untouched :
    upc p ∈ seen_upcs (self (srv s)) ∨ storage (srv s) = storage σ;
  same_settled i t r :
    tasks s !! i = Some t → outcome t = Some r →
    r = Returned p
    ∨ (r = Failed ALREADY_EXISTS "Duplicate UPC"
       ∧ upc p ∈ seen_upcs (self (srv s)));
  same_winner :
    upc p ∈ seen_upcs (self (srv s)) →
    ∃ i t, tasks s !! i = Some t ∧ outcome t = Some (Returned p);
}.

(** The lock is held only by a call suspended in its duplicate abort. *)
Definition lock_owned (s : system) : Prop :=
  lock (self (srv s)) = true →
  ∃ i t code details,
    tasks s !! i = Some t ∧ at_ t = AwaitAbort true code details.

End event_loop.

(** ** The scraping client ([application/main.py]) *)

(** What a retry wrapper does besides returning: it invokes the wrapped
    operation and it sleeps. *)
Inductive event :=
| Invoke
| Sleep (delay : Q).

(** How often a trace invokes the operation, and how long it sleeps. *)
Definition invocations (tr : list event) : nat :=
  length (List.filter (λ ev, match ev with Invoke => true | _ => false end) tr).


(** [range(n)]. *)
Definition range (n : Z) : list Z := Z.of_nat <$> seq 0 (Z.to_nat n).

(** [raise last_exc]; raising [None] is a [TypeError]. *)
Definition raise_last (last_exc : option exn) : exn :=
  default (TypeError "exceptions must derive from BaseException") last_exc.

(** A listing entry, the dict of lines 47-50. *)
Record ListingEntry := { entry_name : string; book_url : string }.

(** The variables of [collect_all_books_from_catalog]. *)
Record CrawlState := {
  all_books : list ListingEntry;
  current_url : option string;
  pages : Z;
}.

Section client.
Context `{RT : Runtime}.
(** The world outside the client: the site, the network, the service. *)
Context {W : Type}.
(** [fetch_text], lines 60-64: one request through the semaphore; the page
    fetched is represented by its soup. *)
Variable fetch_text : string → W → (exn + soup) * W.
(** [stub.ParseBook(ParseBookRequest(html=html))]. *)
Variable stub_ParseBook : soup → W → (exn + Book) * W.
(** [asyncio.sleep(delay)]: the world moves on meanwhile. *)
Variable sleep : Q → W → W.

(** [base_delay * (2 ** attempt)] for a [float] [base_delay]: the power is
    an [int], which the product converts to [float]; from [2 ** 1024] on the
    conversion raises [OverflowError].  Below that the product is taken
    exactly: a power of two scales a [float] without rounding. *)
Definition backoff (base_delay : Q) (attempt : Z) : exn + Q :=
  if 1024 <=? attempt
  then inl (OverflowError "int too large to convert to float")
  else inr (base_delay * inject_Z (2 ^ attempt))%Q.

(** The retry loop, written twice in the source: lines 74-82 around
    [fetch_text], catching [Exception], and lines 117-125 around
    [stub.ParseBook], catching [AioRpcError].  [attempts] is what is left of
    [range(retries)].  An exception raised while the delay is computed
    leaves the [except] clause and the function. *)
Fixpoint retry_loop {A} (operation : W → (exn + A) * W) (caught : exn → bool)
    (attempts : list Z) (last_exc : option exn) (retries : Z) (base_delay : Q)
    (w : W) : (exn + A) * W * list event :=
  match attempts with
  | [] => (inl (raise_last last_exc), w, [])
  | attempt :: rest =>
      match operation w with
      | (inr result, w) => (inr result, w, [Invoke])
      | (inl exc, w) =>
          if caught exc then
            if attempt <? retries - 1 then
              match backoff base_delay attempt with
              | inl e => (inl e, w, [Invoke])
              | inr d =>
                  let '(r, w, tr) :=
                    retry_loop operation caught rest (Some exc) retries
                               base_delay (sleep d w) in
                  (r, w, Invoke :: Sleep d :: tr)
              end
            else
              let '(r, w, tr) :=
                retry_loop operation caught rest (Some exc) retries base_delay
                           w in
              (r, w, Invoke :: tr)
          else (inl exc, w, [Invoke])
      end
  end.

(** [fetch_text_with_retry], lines 67-82. *)
Definition fetch_text_with_retry (url : string) (retries : Z) (base_delay : Q)
    (w : W) : (exn + soup) * W * list event :=
  retry_loop (fetch_text url) is_Exception (range retries) None
             retries base_delay w.

(** [parse_book_with_retry], lines 111-125. *)
Definition parse_book_with_retry (html : soup) (retries : Z) (base_delay : Q)
    (w : W) : (exn + Book) * W * list event :=
  retry_loop (stub_ParseBook html) is_AioRpcError (range retries) None
             retries base_delay w.

(** One turn of the loop of lines 40-50. *)
Definition listing_entry (current_url : string) (book : product_pod)
    : exn + ListingEntry :=
  match pod_h3 book with
  | None => inl (AttributeError "'NoneType' object has no attribute 'find'")
  | Some None => inl (TypeError "'NoneType' object is not subscriptable")
  | Some (Some name_tag) =>
      match a_title name_tag with
      | None => inl (KeyError "title")
      | Some name =>
          match a_href name_tag with
          | None => inl (KeyError "href")
          | Some link =>
              match urljoin current_url link with
              | inl msg => inl (ValueError msg)
              | inr book_url =>
                  inr {| entry_name := name; book_url := book_url |}
              end
          end
      end
  end.

(** The loop of lines 39-50. *)
Fixpoint listing_entries (current_url : string) (pods : list product_pod)
    : exn + list ListingEntry :=
  match pods with
  | [] => inr []
  | book :: rest =>
      let! entry := listing_entry current_url book in
      let! books := listing_entries current_url rest in
      inr (entry :: books)
  end.

(** Lines 53-54. *)
Definition next_page (html : soup) (current_url : string)
    : exn + option string :=
  match li_next_a html with
  | Some (Some href) =>
      if truthy href then
        match urljoin current_url href with
        | inl msg => inl (ValueError msg)
        | inr next_url => inr (Some next_url)
        end
      else inr None
  | _ => inr None
  end.

(** [parse_listing_page_with_next], lines 36-56. *)
Definition parse_listing_page_with_next (html : soup) (current_url : string)
    : exn + (list ListingEntry * option string) :=
  let! books := listing_entries current_url (product_pods html) in
  let! next_url := next_page html current_url in
  inr (books, next_url).

(** The [while] loop of [collect_all_books_from_catalog], lines 133-138.
    [None]: the fuel ran out before the loop ended. *)
Fixpoint collect_loop (fuel : nat) (max_pages : Z) (st : CrawlState) (w : W)
    : option ((exn + CrawlState) * W * list event) :=
  if truthy_opt (current_url st) && (pages st <? max_pages) then
    match fuel with
    | O => None
    | S fuel =>
        let url := default "" (current_url st) in
        match fetch_text_with_retry url 3 (1 # 2) w with
        | (inl e, w, tr) => Some (inl e, w, tr)
        | (inr html, w, tr) =>
            match parse_listing_page_with_next html url with
            | inl e => Some (inl e, w, tr)
            | inr (books, next_url) =>
                match collect_loop fuel max_pages
                        {| all_books := all_books st ++ books;
                           current_url := next_url;
                           pages := pages st + 1 |} w with
                | Some (r, w, tr') => Some (r, w, tr ++ tr')
                | None => None
                end
            end
        end
    end
  else Some (inr st, w, []).

(** The state in which the walk starts, lines 129-131. *)
Definition crawl_start (start_url : string) : CrawlState :=
  {| all_books := []; current_url := Some start_url; pages := 0 |}.

(** [collect_all_books_from_catalog], lines 128-140. *)
Definition collect_all_books_from_catalog (start_url : string) (max_pages : Z)
    (w : W) : option ((exn + list ListingEntry) * W * list event) :=
  match collect_loop (Z.to_nat max_pages) max_pages (crawl_start start_url) w
  with
  | Some (inr st, w, tr) => Some (inr (all_books st), w, tr)
  | Some (inl e, w, tr) => Some (inl e, w, tr)
  | None => None
  end.

(** The walk described page by page: [visits w url n books url' w'] when,
    from [url] in the world [w], [n] pages are fetched and read one after the
    other, each at the next-page URL of the one before; [books] are their
    entries in order, [url'] is the next-page URL of the last one and [w']
    the world after the last fetch. *)
Inductive visits
    : W → option string → nat → list ListingEntry → option string → W → Prop :=
| visits_none w url : visits w url 0 [] url w
| visits_page w url html w1 tr books next_url n more last w2 :
    truthy url = true →
    fetch_text_with_retry url 3 (1 # 2) w = (inr html, w1, tr) →
    parse_listing_page_with_next html url = inr (books, next_url) →
    visits w1 next_url n more last w2 →
    visits w (Some url) (S n) (books ++ more) last w2.

(** A listing entry has a name and a link. *)
Definition has_name_and_link (book : product_pod) : bool :=
  match pod_h3 book with
  | Some (Some {| a_title := Some _; a_href := Some _ |}) => true
  | _ => false
  end.

End client.

(** *** The retry contract in the words of the design *)

Section retry_contract.
Context {W A : Type}.
Variable sleep : Q → W → W.
Variable operation : W → (exn + A) * W.
Variable caught : exn → bool.
Variable base_delay : Q.

(** The wait between attempt [k] and attempt [k + 1], attempts counted from
    one: [base_delay * 2^(k-1)]. *)
Definition wait_after (k : Z) : Q := (base_delay * inject_Z (2 ^ (k - 1)))%Q.

(** Attempts [k], [k + 1], ... fail with the exceptions [es], each failure
    being followed by its wait. *)
Inductive retried : Z → W → list exn → W → Prop :=
| retried_nil k w : retried k w [] w
| retried_cons k w e w1 es w2 :
    operation w = (inl e, w1) →
    caught e = true →
    retried (k + 1) (sleep (wait_after k) w1) es w2 →
    retried k w (e :: es) w2.

(** What a run does whose attempts [k], ..., [k + failures - 1] fail and are
    retried, up to and including the attempt after them. *)
Fixpoint expected_trace (k : Z) (failures : nat) : list event :=
  match failures with
  | O => [Invoke]
  | S n => Invoke :: Sleep (wait_after k) :: expected_trace (k + 1) n
  end.

End retry_contract.

(** *** The result merger (in [main], lines 204-215) *)

Section merger.
Context `{RT : Runtime}.

(** [load_existing_items], lines 143-151. *)
Definition load_existing_items (output : file) : list json :=
  match output with
  | Content (JList data) => data
  | _ => []
  end.

(** [create_json_file], lines 155-156. *)
Definition create_json_file (w : disk_write) (items : list json)
    (output : file) : (exn + unit) * file :=
  match w with
  | WriteOk => (inr (), Content (JList items))
  | WriteRaises e remains => (inl e, remains)
  end.

(** The set comprehension of line 206.  The set is kept as the list of its
    elements ([None] for a missing or null [upc]); building it raises on an
    element that cannot be hashed. *)
Fixpoint existing_upcs (existing : list json) : exn + list (option json) :=
  match existing with
  | [] => inr []
  | JDict d :: rest =>
      match dict_get d "upc" with
      | Some v =>
          if hashable v then
            let! keys := existing_upcs rest in inr (Some v :: keys)
          else inl (TypeError ("unhashable type: " +:+ repr_str (type_name v)))
      | None => let! keys := existing_upcs rest in inr (None :: keys)
      end
  | _ :: rest => existing_upcs rest
  end.

(** [key in keys] for a [str] key. *)
Definition in_upcs (key : string) (keys : list (option json)) : bool :=
  existsb (λ v, eq_str v key) keys.

(** The loop of lines 208-212. *)
Fixpoint new_items (final_items : list Book) (keys : list (option json))
    : list Book :=
  match final_items with
  | [] => []
  | item :: rest =>
      if negb (in_upcs (upc item) keys)
      then item :: new_items rest (Some (JStr (upc item)) :: keys)
      else new_items rest keys
  end.

(** Lines 206-214: the combined list. *)
Definition merge (existing : list json) (final_items : list Book)
    : exn + list json :=
  let! keys := existing_upcs existing in
  inr (existing ++ (json_of_book <$> new_items final_items keys)).

(** Lines 204-215: load, merge, write back. *)
Definition update_output (w : disk_write) (final_items : list Book)
    (output : file) : (exn + unit) * file :=
  match merge (load_existing_items output) final_items with
  | inl e => (inl e, output)
  | inr combined => create_json_file w combined output
  end.

(** The merge in the words of the design: the key of a fresh record occurs
    in [existing], or in a fresh record scraped earlier. *)
Definition key_in_existing (key : string) (existing : list json) : bool :=
  existsb (λ item, match item with
                   | JDict d => eq_str (dict_get d "upc") key
                   | _ => false
                   end) existing.

Definition key_in_earlier (key : string) (earlier : list Book) : bool :=
  existsb (λ r, String.eqb (upc r) key) earlier.

(** The fresh records to append: those whose key occurs neither in
    [existing] nor in an [earlier] fresh record, in the order scraped. *)
Fixpoint appended (existing : list json) (earlier fresh : list Book)
    : list Book :=
  match fresh with
  | [] => []
  | r :: rest =>
      if key_in_existing (upc r) existing || key_in_earlier (upc r) earlier
      then appended existing (earlier ++ [r]) rest
      else r :: appended existing (earlier ++ [r]) rest
  end.

(** No [upc] of an existing item is a list or a dict. *)
Definition hashable_upcs (existing : list json) : bool :=
  forallb (λ item, match item with
                   | JDict d => match dict_get d "upc" with
                                | Some v => hashable v
                                | None => true
                                end
                   | _ => true
                   end) existing.

End merger.

(** ** The rest of the pipeline ([application/main.py]) *)

(** [range(0, n, step)] for a length [n]: a zero step is refused, a negative
    one gives nothing. *)
Definition range_step (n step : Z) : exn + list Z :=
  if step =? 0 then inl (ValueError "range() arg 3 must not be zero")
  else if step <? 0 then inr []
  else inr ((λ k, Z.of_nat k * step)
              <$> seq 0 (Z.to_nat ((n + step - 1) / step))).

(** The slice [l[i:j]] for [0 <= i <= j], the indices the batch loop makes. *)
Definition slice {A} (i j : Z) (l : list A) : list A :=
  take (Z.to_nat (j - i)) (drop (Z.to_nat i) l).

Section batches.
Context {W C R : Type}.
(** [asyncio.gather] with [return_exceptions=True] on the coroutines of the
    batch: they run interleaved; there is one result per coroutine, a raised
    exception being a result. *)
Variable gather : list C → W → list R * W.

(** The loop of [gather_in_batches], lines 161-164. *)
Fixpoint gather_batches (starts : list Z) (coros : list C) (batch_size : Z)
    (results : list R) (w : W) : list R * W :=
  match starts with
  | [] => (results, w)
  | i :: starts =>
      let batch := slice i (i + batch_size) coros in
      let '(batch_results, w) := gather batch w in
      gather_batches starts coros batch_size (results ++ batch_results) w
  end.

(** [gather_in_batches], lines 159-165. *)
Definition gather_in_batches (coros : list C) (batch_size : Z) (w : W)
    : (exn + list R) * W :=
  match range_step (Z.of_nat (length coros)) batch_size with
  | inl e => (inl e, w)
  | inr starts =>
      let '(results, w) := gather_batches starts coros batch_size [] w in
      (inr results, w)
  end.

End batches.

Section pipeline.
Context `{RT : Runtime} {W : Type}.
Variable fetch_text : string → W → (exn + soup) * W.
Variable stub_ParseBook : soup → W → (exn + Book) * W.
Variable sleep : Q → W → W.
(** The gathering of the coroutines [scrape_book_details_async(url)], each
    named by its URL. *)
Variable gather : list string → W → list (exn + option Book) * W.

(** [scrape_book_details_async], lines 86-108: the record, or [None] after
    an RPC error of any status; other exceptions go through. *)
Definition scrape_book_details_async (book_url : string) (w : W)
    : (exn + option Book) * W * list event :=
  match fetch_text_with_retry fetch_text sleep book_url 3 (1 # 2) w with
  | (inl e, w, tr) => (inl e, w, tr)
  | (inr html, w, tr) =>
      match parse_book_with_retry stub_ParseBook sleep html 3 (1 # 2) w with
      | (inr book, w, tr') => (inr (Some book), w, tr ++ tr')
      | (inl e, w, tr') =>
          if is_AioRpcError e then (inr None, w, tr ++ tr')
          else (inl e, w, tr ++ tr')
      end
  end.

(** The loop of lines 186-196 over [zip(books_from_listing, details_list)]:
    [None] and [Exception] objects are skipped; any other object is indexed
    as a dict, which an exception object outside [Exception] refuses. *)
Fixpoint final_items (pairs : list (ListingEntry * (exn + option Book)))
    : exn + list Book :=
  match pairs with
  | [] => inr []
  | (_, inr None) :: rest => final_items rest
  | (_, inl e) :: rest =>
      if is_Exception e then final_items rest
      else inl (TypeError "'CancelledError' object is not subscriptable")
  | (_, inr (Some details)) :: rest =>
      let! items := final_items rest in inr (details :: items)
  end.

(** [BASE_URL] and [BASE_CATALOGUE], lines 30-31. *)
Definition BASE_URL : string := "https://books.toscrape.com/".

Definition BASE_CATALOGUE : string + string :=
  urljoin BASE_URL "catalogue/page-1.html".

(** [main], lines 168-218, without its prints: walk the catalogue, gather the
    details in batches of 100, keep the records, merge them into the output
    file.  [None]: the walk ran out of fuel. *)
Definition main (w_out : disk_write) (output : file) (w : W)
    : option ((exn + unit) * file * W) :=
  match BASE_CATALOGUE with
  | inl msg => Some (inl (ValueError msg), output, w)
  | inr start_url =>
      match collect_all_books_from_catalog fetch_text sleep start_url 200 w
      with
      | None => None
      | Some (inl e, w, _) => Some (inl e, output, w)
      | Some (inr books_from_listing, w, _) =>
          let coros := book_url <$> books_from_listing in
          match gather_in_batches gather coros 100 w with
          | (inl e, w) => Some (inl e, output, w)
          | (inr details_list, w) =>
              match final_items (zip books_from_listing details_list) with
              | inl e => Some (inl e, output, w)
              | inr items =>
                  let '(r, output) := update_output w_out items output in
                  Some (r, output, w)
              end
          end
      end
  end.

End pipeline.

(** *** Keys of stored items *)

Section keys.
Context `{RT : Runtime}.

(** The [upc] of an item when the item is an object whose [upc] is a
    string. *)
Definition upc_of (item : json) : option string :=
  match item with
  | JDict d => match dict_get d "upc" with Some (JStr k) => Some k | _ => None end
  | _ => None
  end.

(** The string keys of a list of items, in order. *)
Definition str_keys (items : list json) : list string := omap upc_of items.

End keys.

(** ** A concrete runtime and sample data

    Closed examples need the library primitives at some inputs.  [sample] agrees
    with Python on the inputs the examples use: unsigned decimal literals for
    [float] (as exact rationals), ASCII blanks for [strip], absolute links and
    plain file names for [urljoin]. *)

Module Sample.

Definition is_digit (c : Ascii.ascii) : bool :=
  let n := Ascii.nat_of_ascii c in (48 <=? n)%nat && (n <=? 57)%nat.

Definition is_blank (c : Ascii.ascii) : bool :=
  let n := Ascii.nat_of_ascii c in
  ((9 <=? n)%nat && (n <=? 13)%nat) || (n =? 32)%nat.

(** The digits of [s] read as a number; [None] if one is not a digit. *)
Fixpoint digits (s : list Ascii.ascii) (acc : Z) : option Z :=
  match s with
  | [] => Some acc
  | c :: s =>
      if is_digit c
      then digits s (10 * acc + Z.of_nat (Ascii.nat_of_ascii c) - 48)
      else None
  end.

Fixpoint split_dot (s : list Ascii.ascii)
    : list Ascii.ascii * option (list Ascii.ascii) :=
  match s with
  | [] => ([], None)
  | c :: s =>
      if Ascii.eqb c (Ascii.ascii_of_nat 46) then ([], Some s)
      else let '(i, f) := split_dot s in (c :: i, f)
  end.

Fixpoint lstrip (s : list Ascii.ascii) : list Ascii.ascii :=
  match s with
  | c :: s' => if is_blank c then lstrip s' else s
  | [] => []
  end.

Definition strip (s : string) : string :=
  String.string_of_list_ascii
    (rev (lstrip (rev (lstrip (String.list_ascii_of_string s))))).

Definition decimal (text : string) : string + Q :=
  let bad := inl ("could not convert string to float: " +:+ repr_str text) in
  let '(i, f) := split_dot (String.list_ascii_of_string (strip text)) in
  let f := default [] f in
  match i ++ f, digits i 0, digits f 0 with
  | _ :: _, Some n, Some m =>
      inr ((n * 10 ^ Z.of_nat (length f) + m) # Pos.of_nat (10 ^ length f))
  | _, _, _ => bad
  end.

Fixpoint dirname (acc seen : list Ascii.ascii) (s : list Ascii.ascii)
    : list Ascii.ascii :=
  match s with
  | [] => acc
  | c :: s =>
      if Ascii.eqb c (Ascii.ascii_of_nat 47) then dirname (seen ++ [c]) (seen ++ [c]) s
      else dirname acc (seen ++ [c]) s
  end.

Definition join (base url : string) : string + string :=
  if String.prefix "http://" url || String.prefix "https://" url then inr url
  else inr (String.string_of_list_ascii (dirname [] [] (String.list_ascii_of_string base))
            +:+ url).

#[export] Instance sample : Runtime :=
  {| float := Q; py_float := decimal; py_strip := strip; urljoin := join |}.

(** A detail page of the site. *)
Definition attic : soup :=
  {| product_pods := [];
     li_next_a := None;
     product_main_h1 := Some "A Light in the Attic";
     instock_availability := Some "In stock (22 available)";
     table_striped := Some
       [ {| row_th := Some "UPC"; row_td := Some "a897fe39b1053632" |};
         {| row_th := Some "Product Type"; row_td := Some "Books" |};
         {| row_th := Some "Price (excl. tax)"; row_td := Some "£51.77" |};
         {| row_th := Some "Price (incl. tax)"; row_td := Some "£51.77" |};
         {| row_th := Some "Tax"; row_td := Some "£0.00" |};
         {| row_th := Some "Availability";
            row_td := Some "In stock (22 available)" |};
         {| row_th := Some "Number of reviews"; row_td := Some "0" |} ] |}.

(** The record extracted from it. *)
Definition attic_book : Book :=
  {| name := "A Light in the Attic";
     availability := "In stock (22 available)";
     upc := "a897fe39b1053632";
     price_excl_tax := (5177 # 100)%Q;
     tax := (0 # 100)%Q |}.

(** A second detail page. *)
Definition velvet : soup :=
  {| product_pods := [];
     li_next_a := None;
     product_main_h1 := Some "Tipping the Velvet";
     instock_availability := Some "In stock (20 available)";
     table_striped := Some
       [ {| row_th := Some "UPC"; row_td := Some "90fa61229261140a" |};
         {| row_th := Some "Price (excl. tax)"; row_td := Some "£53.74" |};
         {| row_th := Some "Tax"; row_td := Some "£0.00" |} ] |}.

Definition velvet_book : Book :=
  {| name := "Tipping the Velvet";
     availability := "In stock (20 available)";
     upc := "90fa61229261140a";
     price_excl_tax := (5374 # 100)%Q;
     tax := (0 # 100)%Q |}.

(** A service process that has just started, over a given store file. *)
Definition started (storage : file) : server :=
  {| self := init; storage := storage |}.

(** The service after it has accepted the first page. *)
Definition after_attic : server :=
  {| self := {| lock := false; seen_upcs := {[upc attic_book]} ∪ ∅ |};
     storage := Content (JList [json_of_book attic_book]) |}.

(** A store whose list holds something that is not an object. *)
Definition odd_store : file := Content (JList [JInt 5]).

(** The service after a call for the first page failed on that store. *)
Definition after_failure : server :=
  {| self := {| lock := false; seen_upcs := {[upc attic_book]} ∪ ∅ |};
     storage := odd_store |}.

(** The same page submitted twice; two different pages. *)
Definition twice : list (soup * disk_write) :=
  [(attic, WriteOk); (attic, WriteOk)].

Definition two_books : list (soup * disk_write) :=
  [(attic, WriteOk); (velvet, WriteOk)].

Definition call_of (html : soup) (c : coroutine) : task :=
  {| request := html; write := WriteOk; at_ := c |}.

(** Time passing changes nothing in the sample worlds. *)
Definition still {W} (delay : Q) (w : W) : W := w.


(** Listing pages: one entry each, chained by their next links. *)
Definition pod (title href : string) : product_pod :=
  {| pod_h3 := Some (Some {| a_title := Some title; a_href := Some href |}) |}.

Definition listing (pods : list product_pod) (next : option string) : soup :=
  {| product_pods := pods;
     li_next_a := Some <$> next;
     product_main_h1 := None;
     instock_availability := None;
     table_striped := None |}.

Definition page_url (n : string) : string :=
  "https://books.toscrape.com/catalogue/page-" +:+ n +:+ ".html".

(** A catalogue of five pages; the fifth has no next link. *)
Definition catalogue (url : string) (w : unit) : (exn + soup) * unit :=
  if String.eqb url (page_url "1")
  then (inr (listing [pod "A Light in the Attic"
                          "a-light-in-the-attic_1000/index.html"]
                     (Some "page-2.html")), w)
  else if String.eqb url (page_url "2")
  then (inr (listing [pod "Tipping the Velvet"
                          "tipping-the-velvet_999/index.html"]
                     (Some "page-3.html")), w)
  else if String.eqb url (page_url "3")
  then (inr (listing [pod "Soumission" "soumission_998/index.html"]
                     (Some "page-4.html")), w)
  else if String.eqb url (page_url "4")
  then (inr (listing [pod "Sharp Objects" "sharp-objects_997/index.html"]
                     (Some "page-5.html")), w)
  else if String.eqb url (page_url "5")
  then (inr (listing [pod "Sapiens" "sapiens_996/index.html"] None), w)
  else (inl (ClientError "404, Not Found"), w).

(** A listing page whose second entry has no title. *)
Definition gap : soup :=
  listing [pod "A Light in the Attic" "a-light-in-the-attic_1000/index.html";
           {| pod_h3 := Some (Some {| a_title := None;
                                      a_href := Some "x/index.html" |}) |};
           pod "Soumission" "soumission_998/index.html"]
          None.

(** Records with the keys of the design's example. *)
Definition keyed (key : string) : Book :=
  {| name := "Book " +:+ key; availability := "In stock"; upc := key;
     price_excl_tax := 10%Q; tax := 0%Q |}.

End Sample.

(** *** A sample site and service for the whole pipeline *)

Module Fixtures.
Import Sample.

(** The world of the sample pipeline is the service; the site does not
    change.  Two of the five books of the catalogue have a detail page. *)
Definition site (url : string) (σ : server) : (exn + soup) * server :=
  if String.eqb url
       "https://books.toscrape.com/catalogue/a-light-in-the-attic_1000/index.html"
  then (inr attic, σ)
  else if String.eqb url
            "https://books.toscrape.com/catalogue/tipping-the-velvet_999/index.html"
  then (inr velvet, σ)
  else ((catalogue url tt).1, σ).

(** A gathering that runs its coroutines one after the other. *)
Fixpoint one_by_one (urls : list string) (σ : server)
    : list (exn + option Book) * server :=
  match urls with
  | [] => ([], σ)
  | url :: urls =>
      let '(r, σ, _) :=
        scrape_book_details_async site remote_ParseBook still url σ in
      let '(rs, σ) := one_by_one urls σ in
      (r :: rs, σ)
  end.

(** A gathering of coroutines that answer with their own number. *)
Definition echo (batch : list nat) (w : unit) : list nat * unit := (batch, w).

(** A store with one record, and one with two records of the same key. *)
Definition one_record : file := Content (JList [json_of_book attic_book]).

(** A store whose only item has a list as its [upc]. *)
Definition list_keyed : list json := [JDict [("upc", JList [])]].

(** A store the search of which raises before it finds the key. *)
Definition number_first : file :=
  Content (JList [JInt 5; json_of_book attic_book]).

(** A detail page without its table, and one without a price. *)
Definition no_table : soup :=
  {| product_pods := []; li_next_a := None;
     product_main_h1 := Some "A Light in the Attic";
     instock_availability := Some "In stock (22 available)";
     table_striped := None |}.

Definition no_price : soup :=
  {| product_pods := []; li_next_a := None;
     product_main_h1 := Some "A Light in the Attic";
     instock_availability := Some "In stock (22 available)";
     table_striped := Some
       [ {| row_th := Some "UPC"; row_td := Some "a897fe39b1053632" |};
         {| row_th := Some "Tax"; row_td := Some "£0.00" |} ] |}.

(** A transport that is cancelled, and one that always fails. *)
Definition cancelled (url : string) (w : nat) : (exn + soup) * nat :=
  (inl CancelledError, S w).

Definition down (url : string) (w : nat) : (exn + soup) * nat :=
  (inl (ClientError "503, Service Unavailable"), S w).

(** A site whose first listing page answers and whose other pages fail. *)
Definition broken (url : string) (w : nat) : (exn + soup) * nat :=
  if String.eqb url (page_url "1")
  then (inr (listing [pod "A Light in the Attic"
                          "a-light-in-the-attic_1000/index.html"]
                     (Some "page-2.html")), S w)
  else down url w.


(** A gathering that is never reached. *)
Definition idle (urls : list string) (w : nat)
    : list (exn + option Book) * nat := ([], w).

End Fixtures.

(** * Properties of the parsing service *)

Section service_facts.
Context `{RT : Runtime}.
Implicit Types (s : system) (t : task) (σ : server) (k : string).
Implicit Types (c : coroutine) (p : Book) (w : disk_write).

Lemma extracts_parsed html k p :
  extracts html k → parse_product_page html = inr p → upc p = k.
Proof. intros (p' & Hp & <-) Hq. congruence. Qed.

Lemma settled_handler e :
  ∃ r, settled (suspend_in_handler e) = Some r ∧ duplicate r = false
       ∧ ∀ book, r ≠ Returned book.
Proof.
  unfold suspend_in_handler. destruct (is_Exception e); simpl; eauto.
Qed.

(** What the check-and-insert does, in its two cases. *)
Lemma enter_cases w p σ c σ' :
  enter w p σ = (c, σ') →
  (upc p ∈ seen_upcs (self σ)
   ∧ c = AwaitAbort true ALREADY_EXISTS "Duplicate UPC"
   ∧ σ' = set_lock true σ)
  ∨ ((upc p ∉ seen_upcs (self σ))
     ∧ seen_upcs (self σ') = {[upc p]} ∪ seen_upcs (self σ)
     ∧ lock (self σ') = false
     ∧ ∃ r, persist w p (storage σ) = (r, storage σ')
            ∧ c = match r with
                  | inr _ => Finished (Returned p)
                  | inl e => suspend_in_handler e
                  end).
Proof.
  unfold enter. case_decide as Hin.
  - intros [= <- <-]. by left.
  - destruct (persist w p (storage σ)) as [r st] eqn:Hp.
    intros H. right. split; [done|].
    destruct r as [e|[]]; injection H as <- <-; simpl;
      (split_and!; [done|done|]); eexists; split; try reflexivity; done.
Qed.

(** The four ways a call can move. *)
Lemma resume_cases t σ c σ' :
  resume t σ = Some (c, σ') →
  (at_ t = Start ∧ σ' = σ
   ∧ ∃ e, parse_product_page (request t) = inl e ∧ c = suspend_in_handler e)
  ∨ (at_ t = Start ∧ σ' = σ ∧ lock (self σ) = true
     ∧ ∃ p, parse_product_page (request t) = inr p ∧ c = AwaitLock p)
  ∨ (lock (self σ) = false
     ∧ ∃ p, (at_ t = Start ∧ parse_product_page (request t) = inr p
             ∨ at_ t = AwaitLock p)
            ∧ enter (write t) p σ = (c, σ'))
  ∨ (∃ locked code details,
       at_ t = AwaitAbort locked code details
       ∧ c = Finished (Failed code details)
       ∧ σ' = if locked then set_lock false σ else σ).
Proof.
  unfold resume. destruct (at_ t) as [|p|locked code details|r] eqn:Hat.
  - destruct (parse_product_page (request t)) as [e|p] eqn:Hp.
    + intros [= <- <-]. left. eauto.
    + destruct (lock (self σ)) eqn:Hl.
      * intros [= <- <-]. right; left. eauto 10.
      * intros [= H]. right; right; left. split; [done|]. exists p. eauto.
  - destruct (lock (self σ)) eqn:Hl; [done|].
    intros [= H]. right; right; left. split; [done|]. exists p. eauto.
  - intros [= <- <-]. right; right; right. eauto 10.
  - done.
Qed.

(** What one move changes. *)
Lemma resume_effect s i t c σ' :
  consistent s → tasks s !! i = Some t → resume t (srv s) = Some (c, σ') →
  seen_upcs (self (srv s)) ⊆ seen_upcs (self σ')
  ∧ (∀ r, outcome t = Some r → settled c = Some r)
  ∧ (∀ p, c = AwaitLock p → parse_product_page (request t) = inr p)
  ∧ (∀ book, outcome t = None → settled c = Some (Returned book) →
       parse_product_page (request t) = inr book)
  ∧ (∀ p r, outcome t = None → parse_product_page (request t) = inr p →
       settled c = Some r → duplicate r = false →
       (upc p ∉ seen_upcs (self (srv s))) ∧ upc p ∈ seen_upcs (self σ')).
Proof.
  intros Hs Hi Hr.
  destruct (resume_cases _ _ _ _ Hr)
    as [(Hat & -> & e & Hp & ->)
       |[(Hat & -> & Hl & p & Hp & ->)
        |[(Hl & p & Hat & He)
         |(locked & code & details & Hat & -> & ->)]]].
  - split_and!; try done.
    + unfold outcome. by rewrite Hat.
    + intros p. unfold suspend_in_handler. by destruct (is_Exception e).
    + intros book _ H.
      destruct (settled_handler e) as (r & Hr' & _ & Hn).
      rewrite Hr' in H. injection H as ->. by destruct (Hn book).
    + intros p r _ Hp'. congruence.
  - split_and!; try done.
    + unfold outcome. by rewrite Hat.
    + by intros ? [= <-].
  - assert (parse_product_page (request t) = inr p) as Hp.
    { destruct Hat as [[_ ?]|Hat]; [done|]. by eapply waiting_parsed. }
    assert (outcome t = None) as Ho.
    { unfold outcome. by destruct Hat as [[-> _]| ->]. }
    destruct (enter_cases _ _ _ _ _ He)
      as [(Hin & -> & ->)|(Hin & Hseen & _ & r & _ & ->)].
    + split_and!; simpl; try done.
      * by rewrite Ho.
      * intros q r' _ _ [= <-]. done.
    + split_and!.
      * rewrite Hseen. apply union_subseteq_r.
      * by rewrite Ho.
      * intros q. destruct r as [e|[]]; [|done].
        unfold suspend_in_handler. by destruct (is_Exception e).
      * intros book _. destruct r as [e|[]]; [|by intros [= <-]].
        destruct (settled_handler e) as (r & Hr' & _ & Hn).
        intros H. rewrite Hr' in H. injection H as ->. by destruct (Hn book).
      * intros q r' _ Hq _ _. assert (q = p) as -> by congruence.
        split; [done|]. rewrite Hseen.
        apply elem_of_union_l, elem_of_singleton. done.
  - unfold outcome. rewrite Hat. split_and!; try done. by destruct locked.
Qed.

Lemma consistent_initial σ calls : consistent (initial σ calls).
Proof.
  assert (∀ i t, tasks (initial σ calls) !! i = Some t → at_ t = Start) as H.
  { intros i t. simpl. rewrite list_lookup_fmap.
    destruct (calls !! i); simpl; [|done]. by intros [= <-]. }
  split; intros.
  - by erewrite H in * by done.
  - unfold outcome in *. by erewrite H in * by done.
  - unfold outcome in *. by erewrite H in * by done.
  - unfold outcome in *. by erewrite (H i) in * by done.
Qed.

Lemma consistent_step s s' : consistent s → step s s' → consistent s'.
Proof.
  intros Hs Hstep. destruct Hstep as [s i t c σ' Hi Hr].
  destruct (resume_effect _ _ _ _ _ Hs Hi Hr)
    as (Hsub & Hkeep & Hwait & Hret & Hnew).
  assert (∀ j u, (<[i:=moved t c]> (tasks s)) !! j = Some u →
            (j = i ∧ u = moved t c) ∨ (j ≠ i ∧ tasks s !! j = Some u)) as Hlk.
  { intros j u. destruct (decide (j = i)) as [->|Hne].
    - rewrite list_lookup_insert_eq; [|by eapply lookup_lt_Some].
      intros [= <-]. by left.
    - rewrite list_lookup_insert_ne; [|done]. by right. }
  (* a call that has passed the check, after the move *)
  assert (∀ j u p r, (<[i:=moved t c]> (tasks s)) !! j = Some u →
            parse_product_page (request u) = inr p →
            outcome u = Some r → duplicate r = false →
            upc p ∈ seen_upcs (self σ')
            ∧ ((j ≠ i ∧ tasks s !! j = Some u)
               ∨ (j = i ∧ outcome t = Some r)
               ∨ (j = i ∧ (upc p ∉ seen_upcs (self (srv s)))))) as Hpass.
  { intros j u p r Hj Hp Ho Hd.
    destruct (Hlk _ _ Hj) as [[-> ->]|[Hne Hj']].
    - simpl in *. destruct (outcome t) as [r0|] eqn:Ho0.
      + assert (r0 = r) as ->.
        { specialize (Hkeep _ eq_refl). unfold outcome in Ho. simpl in Ho.
          congruence. }
        split; [|by right; left]. apply Hsub. by eapply passed_seen.
      + destruct (Hnew p r eq_refl Hp Ho Hd). split; [done|]. by right; right.
    - split; [|by left]. apply Hsub. by eapply passed_seen. }
  split; simpl.
  - intros j u p Hj Hat. destruct (Hlk _ _ Hj) as [[-> ->]|[Hne Hj']].
    + simpl in *. by apply Hwait.
    + by eapply waiting_parsed.
  - intros j u book Hj Ho. destruct (Hlk _ _ Hj) as [[-> ->]|[Hne Hj']].
    + simpl. destruct (outcome t) as [r0|] eqn:Ho0.
      * specialize (Hkeep _ eq_refl). unfold outcome in Ho. simpl in Ho.
        eapply returned_parsed; [done..|]. congruence.
      * by apply Hret.
    + by eapply returned_parsed.
  - intros j u p r Hj Hp Ho Hd. by destruct (Hpass _ _ _ _ Hj Hp Ho Hd).
  - intros j j' u u' p p' r r' Hne Hj Hj' Hp Hp' Hk Ho Ho' Hd Hd'.
    destruct (Hpass _ _ _ _ Hj Hp Ho Hd) as [_ Hu].
    destruct (Hpass _ _ _ _ Hj' Hp' Ho' Hd') as [_ Hu'].
    destruct Hu as [[? Hu]|[[-> Hu]|[-> Hu]]],
             Hu' as [[? Hu']|[[-> Hu']|[-> Hu']]]; try done.
    + by eapply (passed_once s Hs j j').
    + destruct (Hlk _ _ Hj') as [[_ ->]|[? _]]; [|done]. simpl in *.
      by eapply (passed_once s Hs j i).
    + apply Hu'. rewrite <-Hk. by eapply passed_seen.
    + destruct (Hlk _ _ Hj) as [[_ ->]|[? _]]; [|done]. simpl in *.
      by eapply (passed_once s Hs i j').
    + apply Hu. rewrite Hk. by eapply passed_seen.
Qed.

Lemma consistent_reachable σ calls s :
  rtc step (initial σ calls) s → consistent s.
Proof.
  intros H.
  apply (rtc_ind_r (R:=step) consistent (initial σ calls));
    [apply consistent_initial
    |intros y z _ Hyz Hy; by eapply consistent_step
    |done].
Qed.

Lemma lookup_moved s i t c j u :
  tasks s !! i = Some t →
  <[i:=moved t c]> (tasks s) !! j = Some u →
  (j = i ∧ u = moved t c) ∨ (j ≠ i ∧ tasks s !! j = Some u).
Proof.
  intros Hi. destruct (decide (j = i)) as [->|Hne].
  - rewrite list_lookup_insert_eq; [|by eapply lookup_lt_Some].
    intros [= <-]. by left.
  - rewrite list_lookup_insert_ne; [|done]. by right.
Qed.

(** *** The lock *)

Lemma lock_owned_initial σ calls :
  lock (self σ) = false → lock_owned (initial σ calls).
Proof. intros H. unfold lock_owned. simpl. congruence. Qed.

Lemma lock_owned_step s s' : lock_owned s → step s s' → lock_owned s'.
Proof.
  intros Hs Hstep. destruct Hstep as [s i t c σ' Hi Hr].
  assert (lock (self (srv s)) = true →
          (∀ code details, at_ t ≠ AwaitAbort true code details) →
          ∃ j u code' details',
            <[i:=moved t c]> (tasks s) !! j = Some u
            ∧ at_ u = AwaitAbort true code' details') as Hother.
  { intros Hl Hnot. destruct (Hs Hl) as (j & u & code' & d' & Hj & Hu).
    destruct (decide (j = i)) as [->|Hne].
    - assert (u = t) as -> by congruence. by destruct (Hnot code' d').
    - exists j, u, code', d'. by rewrite list_lookup_insert_ne. }
  intros Hl. simpl in *.
  destruct (resume_cases _ _ _ _ Hr)
    as [(Hat & -> & _)|[(Hat & -> & _)|[(Hl' & p & _ & He)
       |(locked & code & details & Hat & -> & ->)]]].
  - apply Hother; [done|]. intros ??. by rewrite Hat.
  - apply Hother; [done|]. intros ??. by rewrite Hat.
  - destruct (enter_cases _ _ _ _ _ He)
      as [(_ & -> & _)|(_ & _ & Hf & _)]; [|congruence].
    exists i, (moved t (AwaitAbort true ALREADY_EXISTS "Duplicate UPC")).
    eexists _, _. split; [|done].
    apply list_lookup_insert_eq. by eapply lookup_lt_Some.
  - destruct locked; [done|].
    apply Hother; [done|]. intros ??. by rewrite Hat.
Qed.

Lemma lock_owned_reachable σ calls s :
  lock (self σ) = false → rtc step (initial σ calls) s → lock_owned s.
Proof.
  intros Hl H.
  apply (rtc_ind_r (R:=step) lock_owned (initial σ calls));
    [by apply lock_owned_initial
    |intros y z _ Hyz Hy; by eapply lock_owned_step
    |done].
Qed.

(** A call that is not finished and does not wait for a held lock can run. *)
Lemma resume_enabled t σ :
  (lock (self σ) = false ∨ ∃ locked code details,
      at_ t = AwaitAbort locked code details) →
  (∀ r, at_ t ≠ Finished r) →
  is_Some (resume t σ).
Proof.
  intros Hl Hnf. unfold resume. destruct (at_ t) as [|p|locked code d|r] eqn:Hat.
  - destruct (parse_product_page (request t)); [done|].
    by destruct (lock (self σ)).
  - destruct Hl as [->|(? & ? & ? & ?)]; done.
  - done.
  - by destruct (Hnf r).
Qed.

(** While some call is unfinished, the event loop can go on. *)
Lemma progress s :
  lock_owned s →
  (∃ i t, tasks s !! i = Some t ∧ ∀ r, at_ t ≠ Finished r) →
  ∃ s', step s s'.
Proof.
  intros Hs (i & t & Hi & Hnf).
  destruct (lock (self (srv s))) eqn:Hl.
  - destruct (Hs Hl) as (j & u & code & d & Hj & Hu).
    destruct (resume_enabled u (srv s)) as [[c σ'] Hr].
    { right. eauto. }
    { intros r. by rewrite Hu. }
    eexists. by eapply step_resume.
  - destruct (resume_enabled t (srv s)) as [[c σ'] Hr]; [by left|done|].
    eexists. by eapply step_resume.
Qed.

(** Every move brings its call nearer to its end. *)
Lemma resume_stage t σ c σ' :
  resume t σ = Some (c, σ') → (stage c < stage (at_ t))%nat.
Proof.
  assert (∀ e, (stage (suspend_in_handler e) ≤ 1)%nat) as Hh.
  { intros e. unfold suspend_in_handler. destruct (is_Exception e); simpl; lia. }
  intros Hr.
  destruct (resume_cases _ _ _ _ Hr)
    as [(Hat & _ & e & _ & ->)|[(Hat & _ & _ & p & _ & ->)|[(_ & p & Hat & He)
       |(locked & code & details & Hat & -> & _)]]].
  - rewrite Hat. specialize (Hh e). simpl. lia.
  - rewrite Hat. simpl. lia.
  - assert (stage c ≤ 1)%nat.
    { destruct (enter_cases _ _ _ _ _ He)
        as [(_ & -> & _)|(_ & _ & _ & r & _ & ->)]; [simpl; lia|].
      destruct r as [e|[]]; [apply Hh|simpl; lia]. }
    destruct Hat as [[-> _]| ->]; simpl; lia.
  - rewrite Hat. simpl. lia.
Qed.

Lemma step_work s s' : step s s' → (work s' < work s)%nat.
Proof.
  intros [s0 i t c σ' Hi Hr]. unfold work. simpl.
  pose proof (resume_stage _ _ _ _ Hr) as Hlt.
  rewrite <-(take_drop_middle (tasks s0) i t Hi) at 2.
  rewrite insert_take_drop; [|by eapply lookup_lt_Some].
  rewrite !sum_list_with_app. simpl. lia.
Qed.

(** A lifetime with [n] calls has at most [3 n] moves. *)
Lemma nsteps_bound n s s' : nsteps step n s s' → (n + work s' ≤ work s)%nat.
Proof.
  induction 1 as [|n x y z Hxy _ IH]; [lia|].
  apply step_work in Hxy. lia.
Qed.

Lemma work_initial σ calls : work (initial σ calls) = (3 * length calls)%nat.
Proof.
  unfold work. simpl. induction calls as [|c calls IH]; [done|].
  rewrite fmap_cons. cbn [sum_list_with]. rewrite IH. simpl. lia.
Qed.

Lemma finished_dec t : {finished t} + {¬ finished t}.
Proof.
  unfold finished. destruct (at_ t) as [| | |r].
  1-3: right; by intros [r ?].
  left. by exists r.
Qed.

(** From any moment of a lifetime the calls in flight can all be brought
    to their end. *)
Lemma runs_to_end s :
  lock_owned s → ∃ s', rtc step s s' ∧ Forall finished (tasks s').
Proof.
  remember (work s) as n eqn:Hn. revert s Hn.
  induction n as [n IH] using lt_wf_ind. intros s -> Hs.
  destruct (Forall_Exists_dec finished (λ t, ¬ finished t) finished_dec
              (tasks s)) as [Hall|Hex].
  { exists s. split; [apply rtc_refl|done]. }
  apply Exists_exists in Hex as (t & Hin & Hnf).
  apply list_elem_of_lookup in Hin as [i Hi].
  destruct (progress s Hs) as [s1 Hstep].
  { exists i, t. split; [done|]. intros r Hr. apply Hnf. by exists r. }
  destruct (IH (work s1) (step_work _ _ Hstep) s1 eq_refl) as (s' & Hrun & Hf).
  { by eapply lock_owned_step. }
  exists s'. split; [by eapply rtc_l|done].
Qed.

(** *** The store *)

Lemma eq_str_true v k : eq_str v k = true ↔ v = Some (JStr k).
Proof.
  unfold eq_str. destruct v as [[]|]; try (split; [done|congruence]).
  rewrite String.eqb_eq. split; congruence.
Qed.

Lemma any_upc_true k l :
  any_upc k l = inr true →
  ∃ d, JDict d ∈ l ∧ dict_get d "upc" = Some (JStr k).
Proof.
  induction l as [|b l IH]; simpl; [done|].
  destruct b; try done.
  destruct (eq_str (dict_get d "upc") k) eqn:He.
  - intros _. exists d. split; [left|]. by apply eq_str_true.
  - intros H. destruct (IH H) as (d' & Hin & Hd). exists d'. split; [by right|done].
Qed.

Lemma any_upc_false k l :
  any_upc k l = inr false →
  ∀ d, JDict d ∈ l → dict_get d "upc" ≠ Some (JStr k).
Proof.
  induction l as [|b l IH]; simpl; [by intros _ d ?%not_elem_of_nil|].
  destruct b; try done.
  destruct (eq_str (dict_get d "upc") k) eqn:He; [done|].
  intros H d' [[= <-]|Hin]%elem_of_cons.
  - intros Hd%eq_str_true. congruence.
  - by apply IH.
Qed.

Lemma any_upc_dicts k l :
  Forall (λ v, is_dict v = true) l → ∃ b, any_upc k l = inr b.
Proof.
  induction 1 as [|v l Hv _ [b IH]]; simpl; [by eexists|].
  destruct v; try done. destruct (eq_str _ _); eauto.
Qed.

Lemma stored_book p l :
  stored (upc p) (Content (JList (l ++ [json_of_book p]))).
Proof.
  unfold json_of_book. eexists. split.
  - simpl. apply elem_of_app. right. left.
  - reflexivity.
Qed.

Lemma stored_prefix k st st' :
  load_existing_books st `prefix_of` load_existing_books st' →
  stored k st → stored k st'.
Proof.
  intros [l' Hl] (d & Hin & Hd). exists d. split; [|done].
  rewrite Hl. apply elem_of_app. by left.
Qed.

(** The persistence step with a working disk: nothing is written when the
    key is in the store or the store cannot be searched; otherwise the store
    becomes the list just loaded with the new record at its end. *)
Lemma persist_cases p st r st' :
  persist WriteOk p st = (r, st') →
  (st' = st ∧ ((∃ e, r = inl e) ∨ (r = inr () ∧ stored (upc p) st)))
  ∨ (r = inr () ∧ ¬ stored (upc p) st
     ∧ st' = Content (JList (load_existing_books st ++ [json_of_book p]))).
Proof.
  unfold persist.
  destruct (any_upc (upc p) (load_existing_books st)) as [e|[]] eqn:Ha.
  - intros [= <- <-]. left. eauto.
  - intros [= <- <-]. left. split; [done|]. right. split; [done|].
    by apply any_upc_true.
  - simpl. intros [= <- <-]. right. split_and!; try done.
    intros (d & Hin & Hd). by eapply any_upc_false.
Qed.

Lemma resume_storage t σ c σ' :
  write t = WriteOk → resume t σ = Some (c, σ') →
  (storage σ' = storage σ
   ∨ ∃ book, ¬ stored (upc book) (storage σ)
             ∧ storage σ' = Content (JList (load_existing_books (storage σ)
                                            ++ [json_of_book book])))
  ∧ (∀ book, outcome t = None → settled c = Some (Returned book) →
       stored (upc book) (storage σ')).
Proof.
  intros Hw Hr.
  destruct (resume_cases _ _ _ _ Hr)
    as [(Hat & -> & e & _ & ->)|[(Hat & -> & _ & p & _ & ->)|[(_ & p & Hat & He)
       |(locked & code & details & Hat & -> & ->)]]].
  - split; [by left|]. intros book _ H.
    destruct (settled_handler e) as (r & Hr' & _ & Hn).
    rewrite Hr' in H. injection H as ->. by destruct (Hn book).
  - split; [by left|]. done.
  - rewrite Hw in He.
    destruct (enter_cases _ _ _ _ _ He)
      as [(_ & -> & ->)|(_ & _ & _ & r & Hp & ->)].
    { split; [by left|]. done. }
    destruct (persist_cases _ _ _ _ Hp)
      as [(Hst & [[e ->]|[-> Hin]])|(-> & Hnot & Hst)].
    + split; [by left|]. intros book _ H.
      destruct (settled_handler e) as (r & Hr' & _ & Hn).
      rewrite Hr' in H. injection H as ->. by destruct (Hn book).
    + split; [by left|]. intros book _ [= <-]. by rewrite Hst.
    + split; [right; eauto|]. intros book _ [= <-]. rewrite Hst.
      apply stored_book.
  - split; [left; by destruct locked|].
    unfold outcome. by rewrite Hat.
Qed.

Lemma run_reachable schedule s : rtc step s (run schedule s).
Proof.
  unfold run. revert s. induction schedule as [|i l IH]; intros s; simpl.
  { apply rtc_refl. }
  etrans; [|apply IH].
  unfold turn. destruct (tasks s !! i) as [t|] eqn:Hi; [|apply rtc_refl].
  destruct (resume t (srv s)) as [[c σ']|] eqn:Hr; [|apply rtc_refl].
  apply rtc_once. by eapply step_resume.
Qed.

(** The outcome of a call, once fixed, stays. *)
Lemma step_outcome_stable s s' i t r :
  tasks s !! i = Some t → outcome t = Some r → step s s' →
  ∃ t', tasks s' !! i = Some t' ∧ outcome t' = Some r
        ∧ request t' = request t.
Proof.
  intros Hi Ho Hstep. destruct Hstep as [s j u c σ' Hj Hr]. simpl.
  destruct (decide (i = j)) as [->|Hne].
  - assert (u = t) as -> by congruence.
    exists (moved t c). rewrite list_lookup_insert_eq by by eapply lookup_lt_Some.
    split_and!; try done. unfold outcome in *. simpl.
    destruct (resume_cases _ _ _ _ Hr)
      as [(Hat & _)|[(Hat & _)|[(_ & p & Hat & _)
         |(locked & code & details & Hat & -> & _)]]].
    + by rewrite Hat in Ho.
    + by rewrite Hat in Ho.
    + by destruct Hat as [[Hat _]|Hat]; rewrite Hat in Ho.
    + by rewrite Hat in Ho.
  - exists t. by rewrite list_lookup_insert_ne.
Qed.

Lemma outcome_stable s s' i t r :
  tasks s !! i = Some t → outcome t = Some r → rtc step s s' →
  ∃ t', tasks s' !! i = Some t' ∧ outcome t' = Some r
        ∧ request t' = request t.
Proof.
  intros Hi Ho Hrun. revert t Hi Ho.
  induction Hrun as [|x y z Hxy _ IH]; intros t Hi Ho; [by exists t|].
  destruct (step_outcome_stable _ _ _ _ _ Hi Ho Hxy) as (t1 & Hi1 & Ho1 & Hq).
  destruct (IH _ Hi1 Ho1) as (t2 & ? & ? & ?). exists t2.
  split_and!; try done. congruence.
Qed.

Lemma duplicate_true r :
  duplicate r = true → ∃ details, r = Failed ALREADY_EXISTS details.
Proof. destruct r as [|[] d]; try done. by exists d. Qed.

(** At every moment, two calls with the same key have not both passed the
    duplicate check. *)
Lemma second_is_duplicate σ calls s i j t t' k r r' :
  rtc step (initial σ calls) s →
  i ≠ j → tasks s !! i = Some t → tasks s !! j = Some t' →
  extracts (request t) k → extracts (request t') k →
  outcome t = Some r → duplicate r = false → outcome t' = Some r' →
  ∃ details, r' = Failed ALREADY_EXISTS details.
Proof.
  intros Hrun Hne Hi Hj (p & Hp & Hk) (p' & Hp' & Hk') Ho Hd Ho'.
  apply duplicate_true. destruct (duplicate r') eqn:Hd'; [done|].
  destruct (passed_once s (consistent_reachable _ _ _ Hrun)
              i j t t' p p' r r'); try done. congruence.
Qed.

(** The calls of a lifetime in which the disk works keep their records. *)
Lemma saved_reachable σ calls s :
  Forall (λ cw, cw.2 = WriteOk) calls →
  rtc step (initial σ calls) s →
  Forall (λ t, write t = WriteOk) (tasks s)
  ∧ ∀ i t book, tasks s !! i = Some t → outcome t = Some (Returned book) →
      stored (upc book) (storage (srv s)).
Proof.
  intros Hw Hrun.
  apply (rtc_ind_r (R:=step)
           (λ s, Forall (λ t, write t = WriteOk) (tasks s)
                 ∧ ∀ i t book, tasks s !! i = Some t →
                     outcome t = Some (Returned book) →
                     stored (upc book) (storage (srv s)))
           (initial σ calls)); [| |done].
  - split.
    + simpl. apply Forall_fmap. eapply Forall_impl; [exact Hw|]. done.
    + intros i t book. simpl. rewrite list_lookup_fmap.
      destruct (calls !! i); simpl; [|done]. by intros [= <-].
  - intros y z _ Hstep [Hwy Hsaved]. destruct Hstep as [y i t c σ' Hi Hr].
    assert (write t = WriteOk) as Hwt.
    { eapply (Forall_lookup_1 _ _ _ _ Hwy Hi). }
    destruct (resume_storage _ _ _ _ Hwt Hr) as [Hst Hnew].
    assert (load_existing_books (storage (srv y))
              `prefix_of` load_existing_books (storage σ')) as Hpre.
    { destruct Hst as [->|(book & _ & ->)]; [done|]. simpl.
      by apply prefix_app_r. }
    split; simpl.
    + by apply Forall_insert.
    + intros j u book Hj Ho.
      destruct (lookup_moved _ _ _ _ _ _ Hi Hj) as [[-> ->]|[_ Hj']].
      * destruct (outcome t) as [r0|] eqn:Ho0.
        -- destruct (step_outcome_stable y _ i t r0 Hi Ho0
                       (step_resume y i t c σ' Hi Hr)) as (t' & Ht' & Ho' & _).
           simpl in Ht'.
           rewrite list_lookup_insert_eq in Ht' by by eapply lookup_lt_Some.
           injection Ht' as <-. eapply stored_prefix; [done|].
           eapply Hsaved; [done|]. congruence.
        -- by apply Hnew.
      * eapply stored_prefix; [done|]. by eapply Hsaved.
Qed.

(** *** The same content submitted by every call *)

Lemma same_content_initial σ html p calls :
  Forall (λ cw, cw = (html, WriteOk)) calls →
  upc p ∉ seen_upcs (self σ) →
  same_content σ html p (initial σ calls).
Proof.
  intros Hc Hk. split; simpl.
  - apply Forall_fmap. eapply Forall_impl; [exact Hc|]. by intros ? ->.
  - by right.
  - intros i t r. rewrite list_lookup_fmap.
    destruct (calls !! i); simpl; [|done]. by intros [= <-].
  - done.
Qed.

Lemma same_content_step σ html p s s' :
  parse_product_page html = inr p →
  (∃ b, any_upc (upc p) (load_existing_books (storage σ)) = inr b) →
  consistent s → same_content σ html p s → step s s' →
  same_content σ html p s'.
Proof.
  intros Hp [b Hb] Hcons Hs Hstep. destruct Hstep as [s i t c σ' Hi Hr].
  destruct (Forall_lookup_1 _ _ _ _ (same_request _ _ _ _ Hs) Hi) as [Hq Hw].
  (* the call that has the record is not the one that moves, unless the
     move keeps its outcome *)
  assert (settled c = outcome t ∨ outcome t = None) as Hkeep.
  { destruct (outcome t) as [r|] eqn:Ho; [left|by right].
    destruct (step_outcome_stable s _ i t r Hi Ho
                (step_resume s i t c σ' Hi Hr)) as (t' & Ht' & Ho' & _).
    simpl in Ht'.
    rewrite list_lookup_insert_eq in Ht' by by eapply lookup_lt_Some.
    by injection Ht' as <-. }
  assert (upc p ∈ seen_upcs (self (srv s)) →
          ∃ j u, <[i:=moved t c]> (tasks s) !! j = Some u
                 ∧ outcome u = Some (Returned p)) as Hwin.
  { intros Hin. destruct (same_winner _ _ _ _ Hs Hin) as (j & u & Hj & Hu).
    destruct (decide (j = i)) as [->|Hne].
    - assert (u = t) as -> by congruence. exists i, (moved t c).
      rewrite list_lookup_insert_eq by by eapply lookup_lt_Some.
      split; [done|]. unfold outcome at 1. simpl.
      destruct Hkeep as [->|Hn]; congruence.
    - exists j, u. by rewrite list_lookup_insert_ne. }
  assert (Forall (λ t, request t = html ∧ write t = WriteOk)
            (<[i:=moved t c]> (tasks s))) as Hreq.
  { apply Forall_insert; [by apply (same_request _ _ _ _ Hs)|done]. }
  destruct (resume_cases _ _ _ _ Hr)
    as [(Hat & -> & e & He & ->)|[(Hat & -> & _ & p' & _ & ->)|[(_ & p' & Hat & He)
       |(locked & code & details & Hat & -> & ->)]]].
  - congruence.
  - split; simpl; [done|by apply (same_untouched _ _ _ _ Hs)| |done].
    intros j u r Hj Ho.
    destruct (lookup_moved _ _ _ _ _ _ Hi Hj) as [[-> ->]|[_ Hj']]; [done|].
    by eapply (same_settled _ _ _ _ Hs).
  - assert (p' = p) as ->.
    { destruct Hat as [[_ Hat]|Hat]; [congruence|].
      pose proof (waiting_parsed s Hcons i t p' Hi Hat). congruence. }
    assert (outcome t = None) as Hnone.
    { unfold outcome. by destruct Hat as [[-> _]| ->]. }
    rewrite Hw in He.
    destruct (enter_cases _ _ _ _ _ He)
      as [(Hin & -> & ->)|(Hin & Hseen & _ & r & Hpers & ->)].
    + split; simpl; [done|by left| |done].
      intros j u r Hj Ho.
      destruct (lookup_moved _ _ _ _ _ _ Hi Hj) as [[-> ->]|[_ Hj']].
      * injection Ho as <-. by right.
      * by eapply (same_settled _ _ _ _ Hs).
    + assert (r = inr ()) as ->.
      { destruct (same_untouched _ _ _ _ Hs) as [?|Hst]; [done|].
        revert Hpers. unfold persist. rewrite Hst, Hb.
        destruct b; simpl; congruence. }
      assert (upc p ∈ seen_upcs (self σ')) as Hin'.
      { rewrite Hseen. apply elem_of_union_l. by apply elem_of_singleton. }
      split; simpl; [done|by left| |].
      * intros j u r Hj Ho.
        destruct (lookup_moved _ _ _ _ _ _ Hi Hj) as [[-> ->]|[_ Hj']].
        -- injection Ho as <-. by left.
        -- destruct (same_settled _ _ _ _ Hs _ _ _ Hj' Ho) as [?|[? _]];
             [by left|by right].
      * intros _. exists i, (moved t (Finished (Returned p))).
        split; [|done]. apply list_lookup_insert_eq. by eapply lookup_lt_Some.
  - assert (seen_upcs (self (if locked then set_lock false (srv s)
                             else srv s)) = seen_upcs (self (srv s))) as Hseen.
    { by destruct locked. }
    assert (storage (if locked then set_lock false (srv s) else srv s)
            = storage (srv s)) as Hst.
    { by destruct locked. }
    split; simpl; rewrite ?Hseen, ?Hst;
      [done|by apply (same_untouched _ _ _ _ Hs)| |done].
    intros j u r Hj Ho.
    destruct (lookup_moved _ _ _ _ _ _ Hi Hj) as [[-> ->]|[_ Hj']].
    + eapply (same_settled _ _ _ _ Hs i t); [done|].
      unfold outcome in *. rewrite Hat. by simpl in Ho.
    + by eapply (same_settled _ _ _ _ Hs).
Qed.

Lemma same_content_reachable σ html p calls s :
  parse_product_page html = inr p →
  (∃ b, any_upc (upc p) (load_existing_books (storage σ)) = inr b) →
  Forall (λ cw, cw = (html, WriteOk)) calls →
  upc p ∉ seen_upcs (self σ) →
  rtc step (initial σ calls) s →
  same_content σ html p s.
Proof.
  intros Hp Hb Hc Hk Hrun.
  apply (rtc_ind_r (R:=step) (same_content σ html p) (initial σ calls));
    [by apply same_content_initial| |done].
  intros y z Hy Hyz IH. eapply same_content_step; try done.
  by eapply consistent_reachable.
Qed.

(** *** Calls made one after the other *)

Lemma call_cases w html σ :
  lock (self σ) = false →
  match parse_product_page html with
  | inl e => call w html σ = Some (reported e, σ)
  | inr p =>
      if decide (upc p ∈ seen_upcs (self σ)) then
        call w html σ = Some (Failed ALREADY_EXISTS "Duplicate UPC", σ)
      else
        ∃ r st, persist w p (storage σ) = (r, st)
          ∧ call w html σ
            = Some (match r with inr _ => Returned p | inl e => reported e end,
                    {| self := {| lock := false;
                                  seen_upcs := {[upc p]} ∪ seen_upcs (self σ) |};
                       storage := st |})
  end.
Proof.
  intros Hl. unfold call, ParseBook, reported.
  destruct (parse_product_page html) as [e|p] eqn:Hp.
  - unfold handle. by destruct (is_Exception e).
  - rewrite Hl. unfold accept. case_decide as Hin; [done|].
    destruct (persist w p (storage σ)) as [r st] eqn:Hpers.
    exists r, st. split; [done|]. rewrite Hl.
    destruct r as [e|[]]; [|done].
    unfold handle. by destruct (is_Exception e).
Qed.

(** A call made alone is a run of the event loop with that single call. *)
Lemma call_alone w html σ r σ' :
  lock (self σ) = false →
  call w html σ = Some (r, σ') →
  run [0; 0]%nat (initial σ [(html, w)])
  = {| srv := σ';
       tasks := [{| request := html; write := w; at_ := Finished r |}] |}.
Proof.
  intros Hl Hc. pose proof (call_cases w html σ Hl) as H.
  unfold run, turn, resume, initial, incoming, moved. simpl.
  destruct (parse_product_page html) as [e|p] eqn:Hp.
  - rewrite Hc in H. injection H as -> ->.
    unfold suspend_in_handler, reported. by destruct (is_Exception e).
  - rewrite Hl. unfold enter. case_decide as Hin.
    + rewrite Hc in H. injection H as -> ->. simpl.
      destruct σ as [[l seen] st]. simpl in *. by subst.
    + destruct H as (r0 & st & Hpers & H). rewrite Hc in H.
      injection H as -> ->. rewrite Hpers.
      destruct r0 as [e|[]]; simpl; [|done].
      unfold suspend_in_handler, reported. by destruct (is_Exception e).
Qed.

Lemma any_upc_stored k l :
  Forall (λ v, is_dict v = true) l →
  (∃ d, JDict d ∈ l ∧ dict_get d "upc" = Some (JStr k)) →
  any_upc k l = inr true.
Proof.
  intros Hd Hs. destruct (any_upc_dicts k l Hd) as [[] Hb]; [done|].
  destruct Hs as (d & Hin & Hk). by destruct (any_upc_false _ _ Hb d Hin).
Qed.

End service_facts.

(** * The claims about the parsing service *)

Section service_claims.
Context `{RT : Runtime}.

(** C1.  At-most-once acceptance.  In one service lifetime, whatever the
    order in which the event loop runs the calls: if a call whose content
    extracts key [k] got its record, every other call whose content extracts
    [k] is, as soon as its outcome is fixed, rejected with ALREADY_EXISTS.
    And when the same valid content is submitted twice to a service that has
    not seen its key, over a store that can be searched and written, both
    calls end, one with the record and the other with ALREADY_EXISTS. *)
Theorem at_most_once_acceptance :
  (∀ σ calls s i j t t' k book r,
     rtc step (initial σ calls) s →
     i ≠ j → tasks s !! i = Some t → tasks s !! j = Some t' →
     extracts (request t) k → extracts (request t') k →
     outcome t = Some (Returned book) → outcome t' = Some r →
     ∃ details, r = Failed ALREADY_EXISTS details)
  ∧ (∀ σ html book s,
       lock (self σ) = false →
       parse_product_page html = inr book →
       upc book ∉ seen_upcs (self σ) →
       (∃ b, any_upc (upc book) (load_existing_books (storage σ)) = inr b) →
       rtc step (initial σ [(html, WriteOk); (html, WriteOk)]) s →
       (∃ s', rtc step s s' ∧ Forall finished (tasks s'))
       ∧ ∀ t1 t2 r1 r2,
           tasks s = [t1; t2] →
           outcome t1 = Some r1 → outcome t2 = Some r2 →
           (r1 = Returned book ∧ r2 = Failed ALREADY_EXISTS "Duplicate UPC")
           ∨ (r2 = Returned book
              ∧ r1 = Failed ALREADY_EXISTS "Duplicate UPC")).
Proof.
  split.
  - intros σ calls s i j t t' k book r Hrun Hne Hi Hj Hk Hk' Ho Ho'.
    by eapply (second_is_duplicate σ calls s i j t t' k (Returned book) r).
  - intros σ html book s Hl Hp Hk Hb Hrun. split.
    { apply runs_to_end. by eapply lock_owned_reachable. }
    intros t1 t2 r1 r2 Hts Ho1 Ho2.
    assert (same_content σ html book s) as Hs.
    { apply (same_content_reachable σ html book
               [(html, WriteOk); (html, WriteOk)]); [done|done| |done|done].
      by repeat constructor. }
    pose proof (consistent_reachable _ _ _ Hrun) as Hcons.
    assert (tasks s !! 0%nat = Some t1) as H1 by by rewrite Hts.
    assert (tasks s !! 1%nat = Some t2) as H2 by by rewrite Hts.
    destruct (Forall_lookup_1 _ _ _ _ (same_request _ _ _ _ Hs) H1) as [Hq1 _].
    destruct (Forall_lookup_1 _ _ _ _ (same_request _ _ _ _ Hs) H2) as [Hq2 _].
    destruct (same_settled _ _ _ _ Hs _ _ _ H1 Ho1) as [->|[-> Hin1]],
             (same_settled _ _ _ _ Hs _ _ _ H2 Ho2) as [->|[-> Hin2]].
    + destruct (passed_once s Hcons 0%nat 1%nat t1 t2 book book
                  (Returned book) (Returned book)); try done; congruence.
    + by left.
    + by right.
    + destruct (same_winner _ _ _ _ Hs Hin1) as (i & t & Hi & Ho).
      rewrite Hts in Hi. destruct i as [|[|i]]; simpl in Hi; [| |done].
      * injection Hi as <-. congruence.
      * injection Hi as <-. congruence.
Qed.

(** C3, as the code has it.  A restart leaves the seen set empty; nothing
    is reloaded from the store.  So the first call after a restart whose
    content extracts a key the store already holds is accepted and gets its
    record again; the store is left as it is; and from then on in that
    lifetime the key is rejected with ALREADY_EXISTS. *)
Theorem restart_forgets_store w html book σ :
  parse_product_page html = inr book →
  stored (upc book) (storage σ) →
  Forall (λ v, is_dict v = true) (load_existing_books (storage σ)) →
  seen_upcs (self (restart σ)) = ∅
  ∧ ∃ σ', call w html (restart σ) = Some (Returned book, σ')
          ∧ storage σ' = storage σ
          ∧ upc book ∈ seen_upcs (self σ')
          ∧ call w html σ'
            = Some (Failed ALREADY_EXISTS "Duplicate UPC", σ').
Proof.
  intros Hp Hst Hd. split; [done|].
  pose proof (call_cases w html (restart σ) eq_refl) as H.
  rewrite Hp in H. simpl in H.
  destruct (decide (upc book ∈ (∅ : gset string))) as [Hin|_].
  { by apply not_elem_of_empty in Hin. }
  destruct H as (r & st & Hpers & Hcall).
  unfold persist in Hpers. rewrite (any_upc_stored _ _ Hd Hst) in Hpers.
  injection Hpers as <- <-.
  eexists. split; [exact Hcall|]. simpl. split_and!; [done| |].
  - apply elem_of_union_l. by apply elem_of_singleton.
  - match goal with |- call w html ?σ1 = _ =>
      pose proof (call_cases w html σ1 eq_refl) as H' end.
    rewrite Hp in H'. simpl in H'.
    destruct (decide (upc book ∈ ({[upc book]} ∪ ∅ : gset string)))
      as [_|Hn]; [done|].
    destruct Hn. apply elem_of_union_l. by apply elem_of_singleton.
Qed.

(** C9.  No lost update.  In a lifetime in which the writes to the store
    succeed, whatever the interleaving of the calls: a move of the event
    loop leaves the store as it is or writes the store as it stands at that
    moment with one record more, for a key the store did not hold; so the
    content of the store at any moment is a prefix of its content at any
    later one, and the record of every accepted call is in the store from
    then on. *)
Theorem no_lost_updates σ calls s s' :
  Forall (λ cw, cw.2 = WriteOk) calls →
  rtc step (initial σ calls) s → rtc step s s' →
  (∀ s1, step s s1 →
     storage (srv s1) = storage (srv s)
     ∨ ∃ book, ¬ stored (upc book) (storage (srv s))
         ∧ storage (srv s1)
           = Content (JList (load_existing_books (storage (srv s))
                             ++ [json_of_book book])))
  ∧ load_existing_books (storage (srv s))
      `prefix_of` load_existing_books (storage (srv s'))
  ∧ (∀ i t book, tasks s !! i = Some t → outcome t = Some (Returned book) →
       stored (upc book) (storage (srv s))
       ∧ stored (upc book) (storage (srv s'))).
Proof.
  intros Hw Hrun Hrun'.
  assert (∀ x y, rtc step (initial σ calls) x → step x y →
            storage (srv y) = storage (srv x)
            ∨ ∃ book, ¬ stored (upc book) (storage (srv x))
                ∧ storage (srv y)
                  = Content (JList (load_existing_books (storage (srv x))
                                    ++ [json_of_book book]))) as Hone.
  { intros x y Hx Hxy. destruct (saved_reachable _ _ _ Hw Hx) as [Hwx _].
    destruct Hxy as [x i t c σ' Hi Hr]. simpl.
    eapply resume_storage; [|done].
    by eapply (Forall_lookup_1 _ _ _ _ Hwx Hi). }
  assert (load_existing_books (storage (srv s))
            `prefix_of` load_existing_books (storage (srv s'))) as Hpre.
  { clear -Hone Hrun Hrun'. induction Hrun' as [|x y z Hxy Hyz IH]; [done|].
    etrans; [|apply IH; by eapply rtc_r].
    destruct (Hone x y Hrun Hxy) as [->|(book & _ & ->)]; [done|].
    simpl. by apply prefix_app_r. }
  split_and!; [by eauto|done|].
  intros i t book Hi Ho. destruct (saved_reachable _ _ _ Hw Hrun) as [_ Hsaved].
  pose proof (Hsaved _ _ _ Hi Ho) as Hst. split; [done|].
  by eapply stored_prefix.
Qed.

(** C10.  The key is inserted before the record is persisted, and a failure
    after the insertion leaves it in.  A call that extracted an unseen key
    and then failed has put the key in the seen set, has returned no record
    and has written none (the store is as it was, or as the failed write
    left it), and the same key is rejected with ALREADY_EXISTS afterwards;
    and in any interleaving, when a call that extracted key [k] has failed
    with another status than ALREADY_EXISTS, every other call that extracts
    [k] is rejected with ALREADY_EXISTS. *)
Theorem failure_after_insertion_blocks_key :
  (∀ w html book σ code details σ',
     lock (self σ) = false →
     parse_product_page html = inr book →
     upc book ∉ seen_upcs (self σ) →
     call w html σ = Some (Failed code details, σ') →
     upc book ∈ seen_upcs (self σ')
     ∧ (storage σ' = storage σ ∨ ∃ e, w = WriteRaises e (storage σ'))
     ∧ ∀ w' html', extracts html' (upc book) →
         call w' html' σ'
         = Some (Failed ALREADY_EXISTS "Duplicate UPC", σ'))
  ∧ (∀ σ calls s i t k code details,
       rtc step (initial σ calls) s →
       tasks s !! i = Some t → extracts (request t) k →
       outcome t = Some (Failed code details) → code ≠ ALREADY_EXISTS →
       k ∈ seen_upcs (self (srv s))
       ∧ ∀ s' j t' r,
           rtc step s s' → j ≠ i → tasks s' !! j = Some t' →
           extracts (request t') k → outcome t' = Some r →
           ∃ details', r = Failed ALREADY_EXISTS details').
Proof.
  split.
  - intros w html book σ code details σ' Hl Hp Hk Hc.
    pose proof (call_cases w html σ Hl) as H. rewrite Hp in H.
    destruct (decide (upc book ∈ seen_upcs (self σ))) as [|_]; [done|].
    destruct H as (r & st & Hpers & H). rewrite Hc in H.
    injection H as Hr ->. simpl.
    assert (upc book ∈ ({[upc book]} ∪ seen_upcs (self σ) : gset string))
      as Hin.
    { apply elem_of_union_l. by apply elem_of_singleton. }
    split_and!; [done| |].
    + revert Hpers. unfold persist.
      destruct (any_upc (upc book) (load_existing_books (storage σ)))
        as [e|[]]; [by intros [= _ <-]; left..|].
      destruct w as [|e remains]; simpl.
      * intros [= <- _]. done.
      * intros [= _ <-]. right. by exists e.
    + intros w' html' (p' & Hp' & Hk').
      match goal with |- call w' html' ?σ1 = _ =>
        pose proof (call_cases w' html' σ1 eq_refl) as H' end.
      rewrite Hp' in H'. simpl in H'.
      destruct (decide (upc p' ∈ ({[upc book]} ∪ seen_upcs (self σ)
                                  : gset string))) as [_|Hn]; [done|].
      destruct Hn. by rewrite Hk'.
  - intros σ calls s i t k code details Hrun Hi (p & Hp & Hk) Ho Hcode.
    assert (duplicate (Failed code details) = false) as Hd.
    { by destruct code. }
    split.
    + rewrite <-Hk.
      by eapply (passed_seen s (consistent_reachable _ _ _ Hrun) i t p).
    + intros s' j t' r Hrun' Hne Hj Hk' Ho'.
      destruct (outcome_stable _ _ _ _ _ Hi Ho Hrun') as (t2 & Hi2 & Ho2 & Hq).
      eapply (second_is_duplicate σ calls s' i j t2 t' k); try done.
      * by etrans.
      * rewrite Hq. by exists p.
Qed.

End service_claims.

(** * Properties of the client *)

Section retry_facts.
Context {W A : Type}.
Variable sleep : Q → W → W.
Variable operation : W → (exn + A) * W.
Variable caught : exn → bool.
Variable base_delay : Q.
Variable retries : Z.

Lemma backoff_wait a :
  a < 1024 → backoff base_delay a = inr (wait_after base_delay (a + 1)).
Proof.
  intros Ha. unfold backoff, wait_after.
  assert ((1024 <=? a) = false) as -> by (apply Z.leb_gt; lia).
  by rewrite Z.add_simpl_r.
Qed.


Lemma invocations_cons ev tr :
  invocations (ev :: tr)
  = (match ev with Invoke => 1 | Sleep _ => 0 end + invocations tr)%nat.
Proof. by destruct ev. Qed.

Lemma retry_loop_invocations attempts last w r w' tr :
  retry_loop sleep operation caught attempts last retries base_delay w
  = (r, w', tr) →
  (invocations tr ≤ length attempts)%nat.
Proof.
  revert last w r w' tr.
  induction attempts as [|a attempts IH]; intros last w r w' tr; simpl.
  { intros [= _ _ <-]. done. }
  destruct (operation w) as [[e|x] w1].
  - destruct (caught e).
    + destruct (a <? retries - 1).
      * destruct (backoff base_delay a) as [e'|d].
        { intros [= _ _ <-]. unfold invocations. simpl. lia. }
        destruct (retry_loop _ _ _ attempts _ _ _ _) as [[r1 w2] tr1] eqn:E.
        intros [= _ _ <-]. apply IH in E.
        rewrite !invocations_cons. lia.
      * destruct (retry_loop _ _ _ attempts _ _ _ _) as [[r1 w2] tr1] eqn:E.
        intros [= _ _ <-]. apply IH in E.
        rewrite !invocations_cons. lia.
    + intros [= _ _ <-]. unfold invocations. simpl. lia.
  - intros [= _ _ <-]. unfold invocations. simpl. lia.
Qed.

Lemma length_range n : length (range n) = Z.to_nat n.
Proof. unfold range. by rewrite length_fmap, length_seq. Qed.

Lemma retry_loop_caught a attempts last w e w1 :
  operation w = (inl e, w1) → caught e = true → (a <? retries - 1) = true →
  a < 1024 →
  retry_loop sleep operation caught (a :: attempts) last retries base_delay w
  = let '(r, w2, tr) :=
      retry_loop sleep operation caught attempts (Some e) retries base_delay
                 (sleep (wait_after base_delay (a + 1)) w1) in
    (r, w2, Invoke :: Sleep (wait_after base_delay (a + 1)) :: tr).
Proof.
  intros Hop Hc Ha Hlow. simpl. by rewrite Hop, Hc, Ha, backoff_wait.
Qed.


(** An exception the wrapper does not catch ends the loop at once. *)
Lemma retry_loop_uncaught a attempts last w e w1 :
  operation w = (inl e, w1) → caught e = false →
  retry_loop sleep operation caught (a :: attempts) last retries base_delay w
  = (inl e, w1, [Invoke]).
Proof. intros Hop Hc. simpl. by rewrite Hop, Hc. Qed.


(** Failures that are caught and followed by attempts still in the budget
    are retried, as long as their delays can be computed: the run goes on
    from the attempt after them. *)
Lemma retry_loop_retried es a n last w w1 :
  retried sleep operation caught base_delay (Z.of_nat a + 1) w es w1 →
  (length es ≤ n)%nat →
  Z.of_nat a + Z.of_nat (length es) < retries ∨ es = [] →
  Z.of_nat a + Z.of_nat (length es) ≤ 1024 →
  ∃ last',
    retry_loop sleep operation caught (Z.of_nat <$> seq a n) last retries
               base_delay w
    = let '(r, w2, tr) :=
        retry_loop sleep operation caught
                   (Z.of_nat <$> seq (a + length es) (n - length es)) last'
                   retries base_delay w1 in
      (r, w2,
       concat ((λ k, [Invoke; Sleep (wait_after base_delay (Z.of_nat k))])
                 <$> seq (S a) (length es)) ++ tr).
Proof.
  revert a n last w.
  induction es as [|e es IH]; intros a n last w Hes Hn Hr Hlow;
    inversion Hes as [|? ? ? w3 ? ? Hop Hc Hrest]; subst.
  - exists last. simpl. rewrite Nat.add_0_r, Nat.sub_0_r.
    by destruct (retry_loop _ _ _ _ _ _ _ _) as [[r w2] tr].
  - destruct n as [|n]; [simpl in Hn; lia|].
    destruct Hr as [Hr|?]; [|done]. simpl length in *.
    change (seq a (S n)) with (a :: seq (S a) n). rewrite fmap_cons.
    rewrite (retry_loop_caught _ _ _ _ _ _ Hop Hc);
      [|apply Z.ltb_lt; lia|lia].
    replace (Z.of_nat a + 1 + 1) with (Z.of_nat (S a) + 1) in Hrest by lia.
    destruct (IH (S a) n (Some e) _ Hrest) as [last' ->];
      [lia|left; lia|lia|].
    exists last'.
    replace (a + S (length es))%nat with (S a + length es)%nat by lia.
    replace (S n - S (length es))%nat with (n - length es)%nat by lia.
    destruct (retry_loop _ _ _ _ _ _ _ _) as [[r w2] tr].
    cbn [seq fmap list_fmap concat app].
    by replace (Z.of_nat a + 1) with (Z.of_nat (S a)) by lia.
Qed.

Lemma expected_trace_split k n :
  expected_trace base_delay (Z.of_nat k) n
  = concat ((λ j, [Invoke; Sleep (wait_after base_delay (Z.of_nat j))])
              <$> seq k n) ++ [Invoke].
Proof.
  revert k. induction n as [|n IH]; intros k; [done|].
  cbn [expected_trace seq fmap list_fmap concat app].
  replace (Z.of_nat k + 1) with (Z.of_nat (S k)) by lia. by rewrite IH.
Qed.



(** When the last attempt of the budget fails too, its exception is raised
    again, without a wait. *)
Lemma retry_loop_exhausted es a last w w1 e w2 :
  retried sleep operation caught base_delay (Z.of_nat a + 1) w es w1 →
  operation w1 = (inl e, w2) →
  caught e = true →
  Z.of_nat a + Z.of_nat (S (length es)) = retries →
  Z.of_nat a + Z.of_nat (length es) ≤ 1024 →
  retry_loop sleep operation caught (Z.of_nat <$> seq a (S (length es))) last
             retries base_delay w
  = (inl e, w2, expected_trace base_delay (Z.of_nat a + 1) (length es)).
Proof.
  intros Hes Hop Hc Hr Hlow.
  destruct (retry_loop_retried es a (S (length es)) last w w1 Hes)
    as [last' ->]; [lia|left; lia|lia|].
  replace (S (length es) - length es)%nat with 1%nat by lia.
  cbn [seq fmap list_fmap retry_loop]. rewrite Hop, Hc.
  assert ((Z.of_nat (a + length es) <? retries - 1) = false) as ->
    by (apply Z.ltb_ge; lia).
  replace (Z.of_nat a + 1) with (Z.of_nat (S a)) by lia.
  by rewrite expected_trace_split.
Qed.




Lemma invocations_expected k n :
  invocations (expected_trace base_delay k n) = S n.
Proof.
  revert k. induction n as [|n IH]; intros k; [done|]. simpl.
  rewrite !invocations_cons, IH. done.
Qed.


Lemma range_cons n : 0 < n → range n = 0 :: (Z.of_nat <$> seq 1 (Z.to_nat n - 1)).
Proof.
  intros Hn. unfold range.
  destruct (Z.to_nat n) as [|m] eqn:Hm; [lia|].
  simpl. by rewrite Nat.sub_0_r.
Qed.

End retry_facts.

(** * The claims about the retry wrappers *)

Section retry_claims.
Context `{RT : Runtime} {W : Type}.
Variable fetch_text : string → W → (exn + soup) * W.
Variable stub_ParseBook : soup → W → (exn + Book) * W.
Variable sleep : Q → W → W.



End retry_claims.

(** * The claims about the listing pages and the walk *)

Section listing_facts.
Context `{RT : Runtime}.

Lemma listing_entry_inr current_url book entry :
  listing_entry current_url book = inr entry →
  ∃ link,
    pod_h3 book = Some (Some {| a_title := Some (entry_name entry);
                                a_href := Some link |})
    ∧ urljoin current_url link = inr (book_url entry).
Proof.
  unfold listing_entry.
  destruct book as [[[[[name|] [link|]]|]|]]; simpl; try done.
  destruct (urljoin current_url link) as [msg|u] eqn:Hj; [done|].
  intros [= <-]. by exists link.
Qed.

Lemma listing_entry_missing current_url book :
  has_name_and_link book = false →
  ∃ e, listing_entry current_url book = inl e.
Proof.
  unfold listing_entry, has_name_and_link.
  destruct book as [[[[[name|] [link|]]|]|]]; simpl; try done; eauto.
Qed.

Lemma listing_entries_inr current_url pods books :
  listing_entries current_url pods = inr books →
  Forall2 (λ book entry, listing_entry current_url book = inr entry)
          pods books.
Proof.
  revert books. induction pods as [|book pods IH]; intros books; simpl.
  { intros [= <-]. constructor. }
  destruct (listing_entry current_url book) as [e|entry] eqn:He; [done|].
  simpl. destruct (listing_entries current_url pods) as [e|rest]; [done|].
  simpl. intros [= <-]. constructor; [done|]. by apply IH.
Qed.

Lemma listing_entries_inl current_url pods :
  Exists (λ book, ∃ e, listing_entry current_url book = inl e) pods →
  ∃ e, listing_entries current_url pods = inl e.
Proof.
  induction 1 as [book pods [e He]|book pods _ [e IH]]; simpl.
  - rewrite He. simpl. eauto.
  - destruct (listing_entry current_url book); simpl; [eauto|].
    rewrite IH. simpl. eauto.
Qed.

Lemma listing_entries_read current_url pods :
  Forall (λ book,
            ∃ name link u,
              pod_h3 book = Some (Some {| a_title := Some name;
                                          a_href := Some link |})
              ∧ urljoin current_url link = inr u) pods →
  ∃ books, listing_entries current_url pods = inr books.
Proof.
  induction 1 as [|book pods (name & link & u & Hh & Hj) _ [books IH]]; simpl.
  { by eexists. }
  unfold listing_entry. rewrite Hh. simpl. rewrite Hj. simpl. rewrite IH.
  simpl. by eexists.
Qed.

Lemma next_page_read html current_url :
  (∀ href, li_next_a html = Some (Some href) → truthy href = true →
           ∃ u, urljoin current_url href = inr u) →
  ∃ next_url, next_page html current_url = inr next_url.
Proof.
  intros Hnext. unfold next_page.
  destruct (li_next_a html) as [[href|]|]; try by eexists.
  destruct (truthy href) eqn:Ht; [|by eexists].
  destruct (Hnext href eq_refl Ht) as [u ->]. by eexists.
Qed.

(** C7, as the code has it.  The listing extractor skips nothing.  If one
    entry of the page lacks its name or its link, reading the page raises
    and no entry of the page is returned.  When the page is read, there is
    one entry per article, in order, with the article's name and its link
    joined to the URL of the page.  And the page is read when every article
    has its name and its link and the links of the page can be joined to
    its URL. *)
Theorem listing_extraction_is_strict html current_url :
  (Exists (λ book, has_name_and_link book = false) (product_pods html) →
   ∃ e, parse_listing_page_with_next html current_url = inl e)
  ∧ (∀ books next_url,
       parse_listing_page_with_next html current_url
       = inr (books, next_url) →
       Forall2
         (λ book entry,
            ∃ link,
              pod_h3 book = Some (Some {| a_title := Some (entry_name entry);
                                          a_href := Some link |})
              ∧ urljoin current_url link = inr (book_url entry))
         (product_pods html) books)
  ∧ (Forall (λ book,
               ∃ name link u,
                 pod_h3 book = Some (Some {| a_title := Some name;
                                             a_href := Some link |})
                 ∧ urljoin current_url link = inr u) (product_pods html) →
     (∀ href, li_next_a html = Some (Some href) → truthy href = true →
              ∃ u, urljoin current_url href = inr u) →
     ∃ books next_url,
       parse_listing_page_with_next html current_url = inr (books, next_url)
       ∧ length books = length (product_pods html)
       ∧ Forall2
           (λ book entry,
              ∃ link,
                pod_h3 book = Some (Some {| a_title := Some (entry_name entry);
                                            a_href := Some link |})
                ∧ urljoin current_url link = inr (book_url entry))
           (product_pods html) books).
Proof.
  assert (∀ books,
            listing_entries current_url (product_pods html) = inr books →
            Forall2
              (λ book entry,
                 ∃ link,
                   pod_h3 book
                   = Some (Some {| a_title := Some (entry_name entry);
                                   a_href := Some link |})
                   ∧ urljoin current_url link = inr (book_url entry))
              (product_pods html) books) as Hread.
  { intros books Hb. apply listing_entries_inr in Hb.
    eapply Forall2_impl; [exact Hb|]. intros book entry.
    apply listing_entry_inr. }
  unfold parse_listing_page_with_next. split_and!.
  - intros Hex.
    destruct (listing_entries_inl current_url (product_pods html)) as [e ->].
    { eapply Exists_impl; [exact Hex|]. intros book.
      apply listing_entry_missing. }
    simpl. eauto.
  - intros books next_url.
    destruct (listing_entries current_url (product_pods html))
      as [e|books'] eqn:Hb; [done|]. simpl.
    destruct (next_page html current_url) as [e|next]; [done|]. simpl.
    intros [= <- <-]. by apply Hread.
  - intros Hpods Hnext.
    destruct (listing_entries_read _ _ Hpods) as [books Hb].
    destruct (next_page_read _ _ Hnext) as [next_url Hn].
    exists books, next_url. rewrite Hb, Hn. simpl.
    pose proof (Hread books Hb) as Hall.
    split; [done|]. split; [|done]. symmetry. by eapply Forall2_length.
Qed.

End listing_facts.

Section walk_facts.
Context `{RT : Runtime} {W : Type}.
Variable fetch_text : string → W → (exn + soup) * W.
Variable sleep : Q → W → W.

Local Abbreviation loop := (collect_loop fetch_text sleep).
Local Abbreviation visited := (visits fetch_text sleep).

(** The loop ends before the fuel does when the fuel covers the pages left
    under the ceiling. *)
Lemma collect_loop_total fuel max_pages st w :
  (Z.to_nat (max_pages - pages st) ≤ fuel)%nat →
  is_Some (loop fuel max_pages st w).
Proof.
  revert st w. induction fuel as [|fuel IH]; intros st w Hf; simpl.
  - destruct (truthy_opt (current_url st)); simpl; [|done].
    destruct (pages st <? max_pages) eqn:Hp; [|done].
    apply Z.ltb_lt in Hp. lia.
  - destruct (truthy_opt (current_url st)); simpl; [|done].
    destruct (pages st <? max_pages) eqn:Hp; [|done].
    apply Z.ltb_lt in Hp.
    destruct (fetch_text_with_retry _ _ _ _ _ _) as [[[e|html] w1] tr]; [done|].
    destruct (parse_listing_page_with_next _ _) as [e|[books next]]; [done|].
    match goal with |- context [loop fuel max_pages ?st1 w1] =>
      destruct (IH st1 w1) as [[[r w2] tr2] ->] end; [simpl; lia|done].
Qed.

(** What the loop returns is a walk along the next-page links that stops
    where the loop condition fails. *)
Lemma collect_loop_sound fuel max_pages st w st' w' tr :
  loop fuel max_pages st w = Some (inr st', w', tr) →
  ∃ n books,
    visited w (current_url st) n books (current_url st') w'
    ∧ all_books st' = all_books st ++ books
    ∧ pages st' = pages st + Z.of_nat n
    ∧ (truthy_opt (current_url st') = false ∨ max_pages ≤ pages st')
    ∧ ((0 < n)%nat → pages st' ≤ max_pages).
Proof.
  revert st w tr. induction fuel as [|fuel IH]; intros st w tr; simpl.
  - destruct (truthy_opt (current_url st)) eqn:Hu; simpl.
    + destruct (pages st <? max_pages) eqn:Hp; [done|].
      intros [= <- <- <-]. exists 0%nat, []. apply Z.ltb_ge in Hp.
      split_and!; [constructor|by rewrite app_nil_r|lia|by right|lia].
    + intros [= <- <- <-]. exists 0%nat, [].
      split_and!; [constructor|by rewrite app_nil_r|lia|by left|lia].
  - destruct (truthy_opt (current_url st)) eqn:Hu; simpl.
    + destruct (pages st <? max_pages) eqn:Hp.
      * destruct (current_url st) as [url|] eqn:Hcur; [|done]. simpl in *.
        destruct (fetch_text_with_retry _ _ _ _ _ _)
          as [[[e|html] w1] tr1] eqn:Hf; [done|].
        destruct (parse_listing_page_with_next _ _)
          as [e|[books next]] eqn:Hparse; [done|].
        destruct (loop fuel max_pages _ w1) as [[[r w2] tr2]|] eqn:Hl; [|done].
        intros [= -> <- <-].
        destruct (IH _ _ _ Hl) as (n & more & Hv & Hb & Hpg & Hstop & Hmax).
        simpl in *. apply Z.ltb_lt in Hp.
        exists (S n), (books ++ more). split_and!.
        -- by econstructor.
        -- by rewrite Hb, app_assoc.
        -- lia.
        -- done.
        -- intros _. destruct n; [|apply Hmax; lia]. lia.
      * intros [= <- <- <-]. exists 0%nat, []. apply Z.ltb_ge in Hp.
        split_and!; [constructor|by rewrite app_nil_r|lia|by right|lia].
    + intros [= <- <- <-]. exists 0%nat, [].
      split_and!; [constructor|by rewrite app_nil_r|lia|by left|lia].
Qed.

(** A walk along the next-page links that stops where the loop condition
    fails is what the loop returns. *)
Lemma collect_loop_complete fuel max_pages st w n books last w' :
  (Z.to_nat (max_pages - pages st) ≤ fuel)%nat →
  visited w (current_url st) n books last w' →
  pages st + Z.of_nat n ≤ max_pages ∨ n = 0%nat →
  truthy_opt last = false ∨ max_pages ≤ pages st + Z.of_nat n →
  ∃ tr, loop fuel max_pages st w
        = Some (inr {| all_books := all_books st ++ books;
                       current_url := last;
                       pages := pages st + Z.of_nat n |}, w', tr).
Proof.
  intros Hf Hv Hn Hstop.
  remember (current_url st) as u eqn:Hu. revert fuel st Hu Hf Hn Hstop.
  induction Hv as [w u|w url html w1 tr1 books next n more last w2
                     Ht Hfetch Hparse Hv IH];
    intros fuel st Hu Hf Hn Hstop.
  - exists []. destruct st as [bs cur pg]. simpl in *. subst cur.
    rewrite app_nil_r, Z.add_0_r.
    assert (truthy_opt u && (pg <? max_pages) = false) as Hc.
    { destruct Hstop as [->|Hs]; [done|].
      apply andb_false_iff. right. apply Z.ltb_ge. lia. }
    destruct fuel; simpl; by rewrite Hc.
  - destruct Hn as [Hn|?]; [|done].
    destruct fuel as [|fuel]; [lia|]. simpl.
    rewrite <-Hu. simpl. rewrite Ht. simpl.
    assert ((pages st <? max_pages) = true) as -> by (apply Z.ltb_lt; lia).
    rewrite Hfetch, Hparse.
    match goal with |- context [loop fuel max_pages ?st1 w1] =>
      destruct (IH fuel st1 eq_refl) as [tr2 ->] end; simpl.
    + lia.
    + left. lia.
    + destruct Hstop as [?|?]; [by left|right; lia].
    + exists (tr1 ++ tr2). rewrite <-app_assoc.
      by replace (pages st + 1 + Z.of_nat n)
        with (pages st + Z.of_nat (S n)) by lia.
Qed.

Lemma visits_split n m w url books last w' :
  visited w url (n + m) books last w' →
  ∃ books1 mid wm books2,
    visited w url n books1 mid wm ∧ visited wm mid m books2 last w'
    ∧ books = books1 ++ books2.
Proof.
  revert w url books. induction n as [|n IH]; intros w url books Hv; simpl in *.
  - exists [], url, w, books. split_and!; [constructor|done|done].
  - inversion Hv as [|? u html w1 tr bs next ? more ? ? Ht Hf Hp Hrest]; subst.
    destruct (IH _ _ _ Hrest) as (b1 & mid & wm & b2 & H1 & H2 & ->).
    exists (bs ++ b1), mid, wm, b2. split_and!; [by econstructor|done|].
    by rewrite app_assoc.
Qed.

(** C8.  The walk ends, with an exception of a fetch or of a page or with
    the entries collected.  The entries returned are those of the pages
    visited, in order, each page after the first being the next page of the
    one before; the walk stops at the first moment at which there is no next
    page or the pages visited have reached the ceiling.  On a chain of [n]
    pages whose last one has no next page it visits the [n] pages when the
    ceiling allows it and as many pages as the ceiling says otherwise: 5
    pages on a chain of 5, and 3 of them under a ceiling of 3. *)
Theorem walk_stops_at_end_or_ceiling start_url max_pages w :
  (∃ r w' tr,
     collect_all_books_from_catalog fetch_text sleep start_url max_pages w
     = Some (r, w', tr))
  ∧ (∀ books w' tr,
       collect_all_books_from_catalog fetch_text sleep start_url max_pages w
       = Some (inr books, w', tr) →
       ∃ st n,
         loop (Z.to_nat max_pages) max_pages (crawl_start start_url) w
         = Some (inr st, w', tr)
         ∧ all_books st = books ∧ pages st = Z.of_nat n
         ∧ visited w (Some start_url) n books (current_url st) w'
         ∧ pages st ≤ Z.max 0 max_pages
         ∧ (truthy_opt (current_url st) = false ∨ max_pages ≤ pages st))
  ∧ (∀ n books last w',
       visited w (Some start_url) n books last w' →
       truthy_opt last = false →
       (Z.of_nat n ≤ max_pages →
        ∃ tr st,
          loop (Z.to_nat max_pages) max_pages (crawl_start start_url) w
          = Some (inr st, w', tr)
          ∧ pages st = Z.of_nat n ∧ all_books st = books
          ∧ collect_all_books_from_catalog fetch_text sleep start_url
              max_pages w = Some (inr books, w', tr))
       ∧ (0 ≤ max_pages < Z.of_nat n →
          ∃ tr st w'' rest,
            loop (Z.to_nat max_pages) max_pages (crawl_start start_url) w
            = Some (inr st, w'', tr)
            ∧ pages st = max_pages ∧ books = all_books st ++ rest
            ∧ visited w (Some start_url) (Z.to_nat max_pages) (all_books st)
                (current_url st) w''))
  ∧ (∀ books w',
       visited w (Some start_url) 5 books None w' →
       (5 ≤ max_pages →
        ∃ tr st,
          loop (Z.to_nat max_pages) max_pages (crawl_start start_url) w
          = Some (inr st, w', tr)
          ∧ pages st = 5 ∧ all_books st = books)
       ∧ (max_pages = 3 →
          ∃ tr st w'',
            loop (Z.to_nat max_pages) max_pages (crawl_start start_url) w
            = Some (inr st, w'', tr)
            ∧ pages st = 3)).
Proof.
  assert (∀ n books last w',
            visited w (Some start_url) n books last w' →
            truthy_opt last = false →
            Z.of_nat n ≤ max_pages →
            ∃ tr st,
              loop (Z.to_nat max_pages) max_pages (crawl_start start_url) w
              = Some (inr st, w', tr)
              ∧ pages st = Z.of_nat n ∧ all_books st = books
              ∧ collect_all_books_from_catalog fetch_text sleep start_url
                  max_pages w = Some (inr books, w', tr)) as Hend.
  { intros n books last w' Hv Hlast Hn.
    destruct (collect_loop_complete (Z.to_nat max_pages) max_pages
                (crawl_start start_url) w n books last w') as [tr Htr];
      [simpl; lia|done|left; simpl; lia|by left|].
    exists tr. eexists. split; [exact Htr|]. simpl.
    split_and!; [done|done|].
    unfold collect_all_books_from_catalog. by rewrite Htr. }
  assert (∀ n books last w',
            visited w (Some start_url) n books last w' →
            0 ≤ max_pages < Z.of_nat n →
            ∃ tr st w'' rest,
              loop (Z.to_nat max_pages) max_pages (crawl_start start_url) w
              = Some (inr st, w'', tr)
              ∧ pages st = max_pages ∧ books = all_books st ++ rest
              ∧ visited w (Some start_url) (Z.to_nat max_pages)
                  (all_books st) (current_url st) w'') as Hcut.
  { intros n books last w' Hv Hn.
    replace n with (Z.to_nat max_pages + (n - Z.to_nat max_pages))%nat
      in Hv by lia.
    apply visits_split in Hv as (b1 & mid & wm & b2 & Hv1 & _ & ->).
    destruct (collect_loop_complete (Z.to_nat max_pages) max_pages
                (crawl_start start_url) w (Z.to_nat max_pages) b1 mid wm)
      as [tr Htr]; [simpl; lia|done|left; simpl; lia|right; simpl; lia|].
    exists tr. eexists. exists wm, b2. split; [exact Htr|]. simpl.
    split_and!; [lia|done|done]. }
  split_and!.
  - unfold collect_all_books_from_catalog.
    destruct (collect_loop_total (Z.to_nat max_pages) max_pages
                (crawl_start start_url) w) as [[[[e|st] w'] tr] ->];
      [simpl; lia|eauto..].
  - intros books w' tr. unfold collect_all_books_from_catalog.
    destruct (loop _ _ _ _) as [[[[e|st] w1] tr1]|] eqn:Hl; try done.
    intros [= <- <- <-].
    destruct (collect_loop_sound _ _ _ _ _ _ _ Hl)
      as (n & books & Hv & Hb & Hp & Hstop & Hmax).
    simpl in *. exists st, n. split_and!; try done.
    + by rewrite Hb.
    + destruct n; [lia|]. specialize (Hmax ltac:(lia)). lia.
  - intros n books last w' Hv Hlast. split; [by eapply Hend|by eapply Hcut].
  - intros books w' Hv. split.
    + intros Hn. destruct (Hend 5%nat books None w' Hv eq_refl)
        as (tr & st & Hl & Hp & Hb & _); [lia|].
      exists tr, st. by split_and!.
    + intros ->. destruct (Hcut 5%nat books None w' Hv)
        as (tr & st & w'' & rest & Hl & Hp & _); [lia|].
      exists tr, st, w''. by split.
Qed.

End walk_facts.

(** * The claims about the result merger *)

Section merge_facts.
Context `{RT : Runtime}.

Lemma existing_upcs_hashable existing :
  hashable_upcs existing = true → ∃ keys, existing_upcs existing = inr keys.
Proof.
  induction existing as [|item existing IH]; simpl; [by eexists|].
  intros [Hi [keys Hk]%IH]%andb_true_iff.
  destruct item; eauto. rewrite Hk.
  destruct (dict_get d "upc") as [v|]; simpl; [|by eexists].
  rewrite Hi. simpl. by eexists.
Qed.

Lemma in_upcs_existing existing keys k :
  existing_upcs existing = inr keys →
  in_upcs k keys = key_in_existing k existing.
Proof.
  revert keys. induction existing as [|item existing IH]; intros keys; simpl.
  { by intros [= <-]. }
  destruct item; try (by intros ?%IH).
  destruct (dict_get d "upc") as [v|] eqn:Hv.
  - destruct (hashable v); [|done].
    destruct (existing_upcs existing) as [e|keys']; [done|]. simpl.
    intros [= <-]. simpl. by rewrite (IH keys').
  - destruct (existing_upcs existing) as [e|keys']; [done|]. simpl.
    intros [= <-]. simpl. by rewrite (IH keys').
Qed.

Lemma key_in_earlier_app k earlier r :
  key_in_earlier k (earlier ++ [r])
  = key_in_earlier k earlier || String.eqb (upc r) k.
Proof.
  unfold key_in_earlier. rewrite existsb_app. simpl. by rewrite orb_false_r.
Qed.

(** The loop over the fresh records computes what the design describes. *)
Lemma new_items_appended existing earlier fresh keys :
  (∀ k, in_upcs k keys
        = key_in_existing k existing || key_in_earlier k earlier) →
  new_items fresh keys = appended existing earlier fresh.
Proof.
  revert earlier keys.
  induction fresh as [|r fresh IH]; intros earlier keys Hk; simpl; [done|].
  rewrite Hk.
  destruct (key_in_existing (upc r) existing || key_in_earlier (upc r) earlier)
    eqn:Hin; simpl.
  - apply IH. intros k. rewrite key_in_earlier_app, Hk.
    destruct (String.eqb_spec (upc r) k) as [<-|_].
    + rewrite Hin. by rewrite !orb_true_r.
    + by rewrite orb_false_r.
  - f_equal. apply IH. intros k. rewrite key_in_earlier_app. simpl.
    rewrite Hk. unfold eq_str.
    destruct (key_in_existing k existing), (key_in_earlier k earlier),
      (String.eqb (upc r) k); done.
Qed.

Lemma merge_spec existing fresh :
  hashable_upcs existing = true →
  merge existing fresh
  = inr (existing ++ (json_of_book <$> appended existing [] fresh)).
Proof.
  intros [keys Hk]%existing_upcs_hashable. unfold merge. rewrite Hk. simpl.
  do 3 f_equal. apply new_items_appended. intros k.
  rewrite (in_upcs_existing _ _ _ Hk). simpl. by rewrite orb_false_r.
Qed.

Lemma merge_inr existing fresh combined :
  merge existing fresh = inr combined →
  hashable_upcs existing = true
  ∧ combined = existing ++ (json_of_book <$> appended existing [] fresh).
Proof.
  intros Hm. assert (hashable_upcs existing = true) as Hh.
  { revert Hm. unfold merge.
    destruct (existing_upcs existing) as [e|keys] eqn:Hk; [done|]. intros _.
    revert keys Hk. induction existing as [|item existing IH]; [done|].
    intros keys. simpl. destruct item; try (by intros ?%IH).
    destruct (dict_get d "upc") as [v|].
    - destruct (hashable v); [|done]. simpl.
      destruct (existing_upcs existing) as [e|keys']; [done|]. eauto.
    - destruct (existing_upcs existing) as [e|keys']; [done|]. eauto. }
  split; [done|]. rewrite merge_spec in Hm by done. congruence.
Qed.







(** C4.  The result merger.  Whenever the keys of the existing set can be
    collected (no [upc] in it is a list or an object, as in any set of
    records), the merge returns the existing entries as they are and in
    their order, followed by those fresh records, in the order scraped,
    whose key occurs neither in the existing set nor in a fresh record
    scraped earlier.  Merging [A; B] with [B; C] gives [A; B; C]. *)
Theorem merge_appends_new_keys :
  (∀ existing fresh,
     hashable_upcs existing = true →
     merge existing fresh
     = inr (existing ++ (json_of_book <$> appended existing [] fresh)))
  ∧ (∀ a b b' c,
       upc a = "A" → upc b = "B" → upc b' = "B" → upc c = "C" →
       merge [json_of_book a; json_of_book b] [b'; c]
       = inr [json_of_book a; json_of_book b; json_of_book c]).
Proof.
  split; [apply merge_spec|].
  intros a b b' c Ha Hb Hb' Hc. rewrite merge_spec by done.
  simpl. unfold key_in_earlier. simpl. rewrite Ha, Hb, Hb', Hc. done.
Qed.


End merge_facts.

(** * The claims at sample inputs *)

Section samples.
Import Sample.

(** Both sides of the equation are closed: let the virtual machine compare
    them. *)
Ltac by_computation :=
  lazymatch goal with
  | |- _ = ?rhs => vm_cast_no_check (@eq_refl _ rhs)
  end.

Lemma attic_parsed : parse_product_page attic = inr attic_book.
Proof. by_computation. Qed.

Lemma velvet_parsed : parse_product_page velvet = inr velvet_book.
Proof. by_computation. Qed.

Lemma attic_extracts : extracts attic (upc attic_book).
Proof. exists attic_book. split; [apply attic_parsed|reflexivity]. Qed.

(** C1 at a sample: the same page submitted twice to a service that has
    just started; the first call runs to its end before the second starts. *)
Lemma at_most_once_acceptance_witness :
  (∃ details,
     Failed ALREADY_EXISTS "Duplicate UPC" = Failed ALREADY_EXISTS details)
  ∧ ((Returned attic_book = Returned attic_book
      ∧ Failed ALREADY_EXISTS "Duplicate UPC"
        = Failed ALREADY_EXISTS "Duplicate UPC")
     ∨ (Failed ALREADY_EXISTS "Duplicate UPC" = Returned attic_book
        ∧ Returned attic_book = Failed ALREADY_EXISTS "Duplicate UPC")).
Proof.
  pose (s := run [0; 1; 1]%nat (initial (started NoFile) twice)).
  pose (t1 := call_of attic (Finished (Returned attic_book))).
  pose (t2 := call_of attic
                (Finished (Failed ALREADY_EXISTS "Duplicate UPC"))).
  assert (tasks s = [t1; t2]) as Hts by (by_computation).
  destruct at_most_once_acceptance as [Hany Htwice]. split.
  - apply (Hany (started NoFile) twice s 0%nat 1%nat t1 t2
             (upc attic_book) attic_book
             (Failed ALREADY_EXISTS "Duplicate UPC")).
    + apply run_reachable.
    + lia.
    + rewrite Hts. reflexivity.
    + rewrite Hts. reflexivity.
    + apply attic_extracts.
    + apply attic_extracts.
    + reflexivity.
    + reflexivity.
  - destruct (Htwice (started NoFile) attic attic_book s) as [_ Hone].
    + reflexivity.
    + apply attic_parsed.
    + apply not_elem_of_empty.
    + exists false. reflexivity.
    + apply run_reachable.
    + apply (Hone t1 t2 _ _ Hts); reflexivity.
Defined.

(** C3 refuted at a sample: the store holds the record of the first page;
    after a restart the page is accepted and its record returned again. *)
Lemma restart_counterexample :
  stored (upc attic_book) (storage after_attic)
  ∧ extracts attic (upc attic_book)
  ∧ call WriteOk attic (restart after_attic)
    = Some (Returned attic_book, after_attic)
  ∧ ¬ (∀ σ html k,
         stored k (storage σ) → extracts html k →
         ∃ details σ',
           call WriteOk html (restart σ)
           = Some (Failed ALREADY_EXISTS details, σ')).
Proof.
  assert (stored (upc attic_book) (storage after_attic)) as Hst.
  { eexists. split; [left|reflexivity]. }
  assert (call WriteOk attic (restart after_attic)
          = Some (Returned attic_book, after_attic)) as Hc.
  { by_computation. }
  split_and!; [exact Hst|apply attic_extracts|exact Hc|].
  intros H.
  destruct (H after_attic attic (upc attic_book) Hst attic_extracts)
    as (details & σ' & Hc').
  rewrite Hc in Hc'. discriminate Hc'.
Qed.

(** C3 as amended, at the same sample. *)
Lemma restart_forgets_store_witness :
  seen_upcs (self (restart after_attic)) = ∅
  ∧ ∃ σ', call WriteOk attic (restart after_attic)
          = Some (Returned attic_book, σ')
          ∧ storage σ' = storage after_attic
          ∧ upc attic_book ∈ seen_upcs (self σ')
          ∧ call WriteOk attic σ'
            = Some (Failed ALREADY_EXISTS "Duplicate UPC", σ').
Proof.
  apply (restart_forgets_store WriteOk attic attic_book after_attic).
  - apply attic_parsed.
  - eexists. split; [left|reflexivity].
  - repeat constructor.
Defined.

(** C9 at a sample: two pages with different keys; the record of the first
    is still in the store after the second has been saved. *)
Lemma no_lost_updates_witness :
  load_existing_books
    (storage (srv (run [0]%nat (initial (started NoFile) two_books))))
    `prefix_of`
    load_existing_books
      (storage (srv (run [0; 1]%nat (initial (started NoFile) two_books))))
  ∧ stored (upc attic_book)
      (storage (srv (run [0; 1]%nat (initial (started NoFile) two_books)))).
Proof.
  pose (s := run [0]%nat (initial (started NoFile) two_books)).
  destruct (no_lost_updates (started NoFile) two_books s (run [1]%nat s))
    as (_ & Hpre & Hkept).
  - repeat constructor.
  - apply run_reachable.
  - apply run_reachable.
  - split; [exact Hpre|].
    apply (Hkept 0%nat (call_of attic (Finished (Returned attic_book)))
             attic_book).
    + by_computation.
    + reflexivity.
Defined.

(** C10 at a sample: the store holds a number where a record should be, so
    that the search of line 100 raises after the key has been inserted. *)
Lemma failure_after_insertion_witness :
  (upc attic_book ∈ seen_upcs (self after_failure)
   ∧ (storage after_failure = storage (started odd_store)
      ∨ ∃ e, WriteOk = WriteRaises e (storage after_failure))
   ∧ call WriteOk attic after_failure
     = Some (Failed ALREADY_EXISTS "Duplicate UPC", after_failure))
  ∧ ∃ details,
      Failed ALREADY_EXISTS "Duplicate UPC" = Failed ALREADY_EXISTS details.
Proof.
  destruct failure_after_insertion_blocks_key as [Hseq Hany]. split.
  - destruct (Hseq WriteOk attic attic_book (started odd_store)
                INVALID_ARGUMENT "'int' object has no attribute 'get'"
                after_failure) as (Hin & Hst & Hnext).
    + reflexivity.
    + apply attic_parsed.
    + apply not_elem_of_empty.
    + by_computation.
    + split_and!; [exact Hin|exact Hst|].
      apply Hnext. apply attic_extracts.
  - pose (s := run [0]%nat (initial (started odd_store) twice)).
    destruct (Hany (started odd_store) twice s 0%nat
                (call_of attic
                   (AwaitAbort false INVALID_ARGUMENT
                      "'int' object has no attribute 'get'"))
                (upc attic_book) INVALID_ARGUMENT
                "'int' object has no attribute 'get'") as [_ Hothers].
    + apply run_reachable.
    + by_computation.
    + apply attic_extracts.
    + reflexivity.
    + discriminate.
    + apply (Hothers (run [1; 1; 0]%nat s) 1%nat
               (call_of attic
                  (Finished (Failed ALREADY_EXISTS "Duplicate UPC")))).
      * apply run_reachable.
      * lia.
      * by_computation.
      * apply attic_extracts.
      * reflexivity.
Defined.




(** C7 refuted at a sample: the second of three entries has no title;
    reading the page raises, and the two other entries are lost with it. *)
Lemma listing_counterexample :
  parse_listing_page_with_next gap (page_url "1") = inl (KeyError "title")
  ∧ ¬ (∀ html current_url,
         ∃ books next_url,
           parse_listing_page_with_next html current_url
           = inr (books, next_url)).
Proof.
  assert (parse_listing_page_with_next gap (page_url "1")
          = inl (KeyError "title")) as Hgap.
  { by_computation. }
  split; [exact Hgap|]. intros H.
  destruct (H gap (page_url "1")) as (books & next_url & Hread).
  rewrite Hgap in Hread. discriminate Hread.
Qed.

(** C7 as amended, at the same sample, and at a page all of whose entries
    have their name and link. *)
Lemma listing_extraction_is_strict_witness :
  (∃ e, parse_listing_page_with_next gap (page_url "1") = inl e)
  ∧ ∃ books next_url,
      parse_listing_page_with_next
        (listing [pod "A Light in the Attic"
                      "a-light-in-the-attic_1000/index.html";
                  pod "Soumission" "soumission_998/index.html"]
                 (Some "page-2.html"))
        (page_url "1")
      = inr (books, next_url)
      ∧ length books = 2%nat.
Proof.
  split.
  - apply (listing_extraction_is_strict gap (page_url "1")).
    apply Exists_cons_tl, Exists_cons_hd. reflexivity.
  - destruct (listing_extraction_is_strict
                (listing [pod "A Light in the Attic"
                              "a-light-in-the-attic_1000/index.html";
                          pod "Soumission" "soumission_998/index.html"]
                         (Some "page-2.html"))
                (page_url "1")) as (_ & _ & Hread).
    destruct Hread as (books & next_url & Hp & Hlen & _).
    + repeat constructor;
        (eexists _, _, _; split; [reflexivity|vm_compute; reflexivity]).
    + intros href Hhref _. injection Hhref as <-.
      eexists. vm_compute. reflexivity.
    + exists books, next_url. split; [exact Hp|exact Hlen].
Defined.

(** The five pages of the sample catalogue, walked one after the other. *)
Lemma catalogue_visits :
  ∃ books,
    visits catalogue still tt (Some (page_url "1")) 5 books None tt
    ∧ length books = 5%nat.
Proof.
  eexists. split.
  - do 5 (eapply visits_page;
          [reflexivity|vm_compute; reflexivity|vm_compute; reflexivity|]).
    apply visits_none.
  - reflexivity.
Defined.

(** C8 at a sample: the catalogue of five pages, under the default ceiling
    and under a ceiling of three. *)
Lemma walk_witness :
  (∃ tr st,
     collect_loop catalogue still (Z.to_nat 200) 200
                  (crawl_start (page_url "1")) tt
     = Some (inr st, tt, tr)
     ∧ pages st = 5 ∧ length (all_books st) = 5%nat)
  ∧ (∃ tr st w,
       collect_loop catalogue still (Z.to_nat 3) 3
                    (crawl_start (page_url "1")) tt
       = Some (inr st, w, tr)
       ∧ pages st = 3).
Proof.
  destruct catalogue_visits as (books & Hv & Hlen). split.
  - destruct (walk_stops_at_end_or_ceiling catalogue still (page_url "1")
                200 tt) as (_ & _ & _ & Hfive).
    destruct (Hfive books tt Hv) as [Hall _].
    destruct Hall as (tr & st & Hl & Hp & Hb); [lia|].
    exists tr, st. split_and!; [exact Hl|exact Hp|]. by rewrite Hb.
  - destruct (walk_stops_at_end_or_ceiling catalogue still (page_url "1")
                3 tt) as (_ & _ & _ & Hfive).
    destruct (Hfive books tt Hv) as [_ Hcut].
    apply Hcut. reflexivity.
Defined.

(** C4 at a sample: the example of the design. *)
Lemma merge_witness :
  merge [json_of_book (keyed "A"); json_of_book (keyed "B")]
        [keyed "B"; keyed "C"]
  = inr ([json_of_book (keyed "A"); json_of_book (keyed "B")]
         ++ (json_of_book
               <$> appended [json_of_book (keyed "A"); json_of_book (keyed "B")]
                            [] [keyed "B"; keyed "C"]))
  ∧ merge [json_of_book (keyed "A"); json_of_book (keyed "B")]
          [keyed "B"; keyed "C"]
    = inr [json_of_book (keyed "A"); json_of_book (keyed "B");
           json_of_book (keyed "C")].
Proof.
  destruct merge_appends_new_keys as [Hspec Habc]. split.
  - apply Hspec. reflexivity.
  - apply Habc; reflexivity.
Defined.


End samples.

(** * More about the parsing service *)

(** Membership in a list written out. *)
Ltac in_list :=
  repeat first [apply list_elem_of_here | apply list_elem_of_further].

Section service_extras.
Context `{RT : Runtime}.

Lemma truthy_true s : truthy s = true ↔ s ≠ "".
Proof.
  unfold truthy. destruct (String.eqb_spec s ""); simpl; split; congruence.
Qed.

Lemma truthy_default o :
  truthy (default "" o) = true → o = Some (default "" o) ∧ default "" o ≠ "".
Proof. destruct o as [s|]; [|done]. simpl. by intros ?%truthy_true. Qed.

Lemma parse_money_inr text x :
  parse_money text = inr x → py_float (py_strip (remove_pound text)) = inr x.
Proof. unfold parse_money. destruct (py_float _); congruence. Qed.

(** X1.  A record that [parse_product_page] returns is complete: the page
    has its table, the name and the availability are the non-empty texts of
    the page, the key is the non-empty cell of the row UPC, and the two
    amounts are the numbers read from the non-empty cells of their rows. *)
Theorem parsed_record_is_complete html book :
  parse_product_page html = inr book →
  ∃ rows price_text tax_text,
    table_striped html = Some rows
    ∧ product_main_h1 html = Some (name book) ∧ name book ≠ ""
    ∧ instock_availability html = Some (availability book)
    ∧ availability book ≠ ""
    ∧ table_info rows !! "UPC" = Some (upc book) ∧ upc book ≠ ""
    ∧ table_info rows !! "Price (excl. tax)" = Some price_text
    ∧ parse_money price_text = inr (price_excl_tax book)
    ∧ table_info rows !! "Tax" = Some tax_text
    ∧ parse_money tax_text = inr (tax book).
Proof.
  unfold parse_product_page.
  destruct (table_striped html) as [rows|]; [|done].
  destruct (truthy (default "" (product_main_h1 html))) eqn:Hn; [|done].
  destruct (truthy (default "" (instock_availability html))) eqn:Ha; [|done].
  destruct (truthy (default "" (table_info rows !! "UPC"))) eqn:Hu; [|done].
  destruct (truthy (default "" (table_info rows !! "Price (excl. tax)")))
    eqn:Hp; [|done].
  destruct (truthy (default "" (table_info rows !! "Tax"))) eqn:Ht; [|done].
  simpl.
  destruct (parse_money (default "" (table_info rows !! "Price (excl. tax)")))
    as [e|price] eqn:Hprice; [done|]. simpl.
  destruct (parse_money (default "" (table_info rows !! "Tax")))
    as [e|tx] eqn:Htax; [done|]. simpl.
  intros [= <-]. simpl.
  apply truthy_default in Hn as [Hn ?], Ha as [Ha ?], Hu as [Hu ?],
    Hp as [Hp ?], Ht as [Ht ?].
  exists rows. eexists _, _. split_and!; done.
Qed.

Lemma in_missing_fields k name availability info :
  k ∈ missing_fields name availability info ↔
  k ∈ ["name"; "availability"; "UPC"; "Price (excl. tax)"; "Tax"]
  ∧ (String.eqb k "name" && negb (truthy name))
    || (String.eqb k "availability" && negb (truthy availability))
    || match info !! k with
       | Some v => negb (truthy v)
       | None => negb (String.eqb k "name" || String.eqb k "availability")
       end = true.
Proof.
  unfold missing_fields. rewrite !list_elem_of_In. apply filter_In.
Qed.

(** X2.  When the page has its table but one of the five required values is
    empty, [parse_product_page] raises the error "Missing required fields"
    with a list that is not empty; each of UPC, Price (excl. tax) and Tax is
    in the list exactly when the table has no non-empty cell for it. *)
Theorem missing_fields_reported html rows :
  table_striped html = Some rows →
  default "" (product_main_h1 html) = ""
  ∨ default "" (instock_availability html) = ""
  ∨ default "" (table_info rows !! "UPC") = ""
  ∨ default "" (table_info rows !! "Price (excl. tax)") = ""
  ∨ default "" (table_info rows !! "Tax") = "" →
  ∃ missing,
    parse_product_page html
    = inl (ValueError ("Missing required fields: " +:+ repr_list missing))
    ∧ missing ≠ []
    ∧ ∀ k, k ∈ ["UPC"; "Price (excl. tax)"; "Tax"] →
        (k ∈ missing ↔ default "" (table_info rows !! k) = "").
Proof.
  intros Hrows Hempty.
  set (name := default "" (product_main_h1 html)) in *.
  set (avail := default "" (instock_availability html)) in *.
  set (info := table_info rows) in *.
  exists (missing_fields name avail info).
  assert (∀ k, k ∈ ["UPC"; "Price (excl. tax)"; "Tax"] →
            (k ∈ missing_fields name avail info ↔ default "" (info !! k) = ""))
    as Htable.
  { clear Hempty. intros k Hk. rewrite in_missing_fields.
    assert (k = "UPC" ∨ k = "Price (excl. tax)" ∨ k = "Tax") as Hk'.
    { repeat (apply elem_of_cons in Hk as [->|Hk]; [by eauto|]).
      by apply not_elem_of_nil in Hk. }
    destruct Hk' as [->|[->| ->]]; simpl;
      (split; [intros [_ H]|intros H; split; [in_list|]]);
      destruct (info !! _) as [v|]; simpl in *; try done;
      unfold truthy in *; try destruct (String.eqb_spec v ""); simpl in *;
      congruence. }
  split_and!; [| |exact Htable].
  - unfold parse_product_page. rewrite Hrows. fold name avail info.
    assert (truthy name && truthy avail
            && truthy (default "" (info !! "UPC"))
            && truthy (default "" (info !! "Price (excl. tax)"))
            && truthy (default "" (info !! "Tax")) = false) as ->; [|done].
    destruct Hempty as [->|[->|[->|[->| ->]]]]; simpl;
      rewrite ?andb_false_r; done.
  - intros Hnil.
    assert (∀ k, k ∉ missing_fields name avail info) as Hnone.
    { intros k. rewrite Hnil. apply not_elem_of_nil. }
    destruct Hempty as [Hn|[Ha|[Hu|[Hp|Ht]]]].
    + apply (Hnone "name"), in_missing_fields.
      split; [in_list|]. by rewrite Hn.
    + apply (Hnone "availability"), in_missing_fields.
      split; [in_list|]. by rewrite Ha.
    + apply (Hnone "UPC"), Htable; [in_list|done].
    + apply (Hnone "Price (excl. tax)"), Htable; [in_list|done].
    + apply (Hnone "Tax"), Htable; [in_list|done].
Qed.

(** One more row of the table. *)
Lemma table_info_snoc rows row :
  table_info (rows ++ [row])
  = match row_th row, row_td row with
    | Some th, Some td => <[th := td]> (table_info rows)
    | _, _ => table_info rows
    end.
Proof. unfold table_info. by rewrite foldl_app. Qed.

(** X3.  In the table of a product page the last row with a given heading
    and a cell decides: the value kept for a heading is the cell of a row
    after which no row has that heading and a cell. *)
Theorem table_info_last_row rows th td :
  table_info rows !! th = Some td ↔
  ∃ before after,
    rows = before ++ {| row_th := Some th; row_td := Some td |} :: after
    ∧ Forall (λ row, ¬ (row_th row = Some th ∧ is_Some (row_td row))) after.
Proof.
  induction rows as [|row rows IH] using rev_ind.
  { split; [done|]. intros (before & after & H & _).
    by destruct before. }
  rewrite table_info_snoc. split.
  - destruct row as [[th'|] [td'|]]; simpl.
    + destruct (decide (th' = th)) as [->|Hne].
      * rewrite lookup_insert_eq. intros [= ->].
        exists rows, []. split; [done|constructor].
      * rewrite lookup_insert_ne by done.
        intros (before & after & -> & Hafter)%IH.
        exists before, (after ++ [{| row_th := Some th'; row_td := Some td' |}]).
        split; [by rewrite <-app_assoc|].
        apply Forall_app. split; [done|].
        constructor; [|constructor]. simpl. intros [[= ?] _]. done.
    + intros (before & after & -> & Hafter)%IH.
      exists before, (after ++ [{| row_th := Some th'; row_td := None |}]).
      split; [by rewrite <-app_assoc|].
      apply Forall_app. split; [done|].
      constructor; [|constructor]. simpl. intros [_ [? [=]]].
    + intros (before & after & -> & Hafter)%IH.
      exists before, (after ++ [{| row_th := None; row_td := Some td' |}]).
      split; [by rewrite <-app_assoc|].
      apply Forall_app. split; [done|].
      constructor; [|constructor]. simpl. intros [[=] _].
    + intros (before & after & -> & Hafter)%IH.
      exists before, (after ++ [{| row_th := None; row_td := None |}]).
      split; [by rewrite <-app_assoc|].
      apply Forall_app. split; [done|].
      constructor; [|constructor]. simpl. intros [[=] _].
  - intros (before & after & Heq & Hafter).
    destruct after as [|r after _] using rev_ind.
    + apply app_inj_tail in Heq as [-> ->]. simpl.
      by rewrite lookup_insert_eq.
    + rewrite app_comm_cons, app_assoc in Heq.
      apply app_inj_tail in Heq as [-> ->].
      apply Forall_app in Hafter as [Hafter Hr].
      rewrite Forall_singleton in Hr.
      assert (table_info (before ++ {| row_th := Some th; row_td := Some td |}
                          :: after) !! th = Some td) as Hrest.
      { apply IH. by exists before, after. }
      destruct r as [[th'|] [td'|]]; simpl in *; try done.
      rewrite lookup_insert_ne; [done|].
      intros ->. apply Hr. split; [done|by eexists].
Qed.

(** X4.  A call that is rejected before the insertion changes nothing: when
    the page cannot be read the call fails with the text of the error (with
    INVALID_ARGUMENT for an [Exception]), when its key is in the seen set it
    fails with ALREADY_EXISTS, and either way the seen set and the store are
    as they were. *)
Theorem rejected_call_changes_nothing w html σ :
  lock (self σ) = false →
  (∀ e, parse_product_page html = inl e →
     call w html σ = Some (reported e, σ)
     ∧ (is_Exception e = true →
        reported e = Failed INVALID_ARGUMENT (str_exn e)))
  ∧ (∀ p, parse_product_page html = inr p →
       upc p ∈ seen_upcs (self σ) →
       call w html σ = Some (Failed ALREADY_EXISTS "Duplicate UPC", σ)).
Proof.
  intros Hl. pose proof (call_cases w html σ Hl) as H. split.
  - intros e He. rewrite He in H. split; [done|].
    unfold reported. by intros ->.
  - intros p Hp Hin. rewrite Hp in H. by case_decide.
Qed.

(** X5.  A call that returns a record has read it from its request, found its
    key unseen and put it in the seen set; the store holds the key
    afterwards: it held it before and is untouched, or the record has been
    appended to what the store held. *)
Theorem accepted_call_records_key w html σ book σ' :
  lock (self σ) = false →
  call w html σ = Some (Returned book, σ') →
  parse_product_page html = inr book
  ∧ (upc book ∉ seen_upcs (self σ))
  ∧ seen_upcs (self σ') = {[upc book]} ∪ seen_upcs (self σ)
  ∧ lock (self σ') = false
  ∧ stored (upc book) (storage σ')
  ∧ (storage σ' = storage σ
     ∨ (¬ stored (upc book) (storage σ)
        ∧ storage σ' = Content (JList (load_existing_books (storage σ)
                                       ++ [json_of_book book])))).
Proof.
  intros Hl Hc. pose proof (call_cases w html σ Hl) as H.
  destruct (parse_product_page html) as [e|p] eqn:Hp.
  { rewrite Hc in H. unfold reported in H. congruence. }
  case_decide as Hin; [congruence|].
  destruct H as (r & st & Hpers & H). rewrite Hc in H.
  destruct r as [e|[]]; [unfold reported in H; congruence|].
  injection H as -> ->. simpl. split_and!; try done.
  - revert Hpers. unfold persist.
    destruct (any_upc (upc p) (load_existing_books (storage σ)))
      as [e|[]] eqn:Ha; [done| |].
    + intros [= <-]. by apply any_upc_true.
    + destruct w; simpl; [|done]. intros [= <-]. apply stored_book.
  - revert Hpers. unfold persist.
    destruct (any_upc (upc p) (load_existing_books (storage σ)))
      as [e|[]] eqn:Ha; [done| |].
    + intros [= <-]. by left.
    + destruct w; simpl; [|done]. intros [= <-]. right. split; [|done].
      intros (d & Hd & Hk). by eapply any_upc_false.
Qed.

Lemma stored_str_keys k st :
  stored k st ↔ k ∈ str_keys (load_existing_books st).
Proof.
  unfold stored, str_keys. rewrite list_elem_of_omap. split.
  - intros (d & Hin & Hd). exists (JDict d). split; [done|]. simpl.
    by rewrite Hd.
  - intros (item & Hin & Hk). destruct item; try done. simpl in Hk.
    destruct (dict_get d "upc") as [[]|] eqn:Hd; try done.
    injection Hk as ->. by exists d.
Qed.

Lemma str_keys_snoc l p :
  str_keys (l ++ [json_of_book p]) = str_keys l ++ [upc p].
Proof. unfold str_keys. by rewrite omap_app. Qed.

(** X6.  The store never comes to hold two records with the same key: in a
    lifetime in which the writes succeed, whatever the interleaving of the
    calls, a store whose string keys are pairwise distinct at the start has
    pairwise distinct keys at every moment. *)
Theorem store_keys_stay_unique σ calls s :
  Forall (λ cw, cw.2 = WriteOk) calls →
  NoDup (str_keys (load_existing_books (storage σ))) →
  rtc step (initial σ calls) s →
  NoDup (str_keys (load_existing_books (storage (srv s)))).
Proof.
  intros Hw Hnd Hrun.
  apply (rtc_ind_r (R:=step)
           (λ s, NoDup (str_keys (load_existing_books (storage (srv s)))))
           (initial σ calls)); [done| |done].
  intros y z Hy Hyz IH. destruct (saved_reachable _ _ _ Hw Hy) as [Hwy _].
  destruct Hyz as [y i t c σ' Hi Hr]. simpl.
  destruct (resume_storage t (srv y) c σ') as [[->|(book & Hnot & ->)] _];
    [by eapply (Forall_lookup_1 _ _ _ _ Hwy Hi)|done|done|].
  simpl. rewrite str_keys_snoc. apply NoDup_app. split_and!.
  - done.
  - intros k Hk ->%list_elem_of_singleton. by apply Hnot, stored_str_keys.
  - apply NoDup_singleton.
Qed.

Lemma stored_snoc k st p :
  stored k (Content (JList (load_existing_books st ++ [json_of_book p]))) →
  stored k st ∨ k = upc p.
Proof.
  rewrite !stored_str_keys. simpl. rewrite str_keys_snoc.
  intros [?|?%list_elem_of_singleton]%elem_of_app; eauto.
Qed.

Lemma resume_store_seen t σ c σ' :
  write t = WriteOk → resume t σ = Some (c, σ') →
  seen_upcs (self σ) ⊆ seen_upcs (self σ')
  ∧ ∀ k, stored k (storage σ') →
         stored k (storage σ) ∨ k ∈ seen_upcs (self σ').
Proof.
  intros Hw Hr.
  destruct (resume_cases _ _ _ _ Hr)
    as [(_ & -> & _)|[(_ & -> & _)|[(_ & p & _ & He)
       |(locked & code & details & _ & _ & ->)]]]; try (split; [done|eauto]).
  - rewrite Hw in He.
    destruct (enter_cases _ _ _ _ _ He)
      as [(_ & _ & ->)|(_ & Hseen & _ & r & Hp & _)];
      [split; [done|eauto]|].
    split; [rewrite Hseen; apply union_subseteq_r|].
    intros k Hk.
    destruct (persist_cases _ _ _ _ Hp) as [[Hst _]|(_ & _ & Hst)];
      rewrite Hst in Hk; [by left|].
    apply stored_snoc in Hk as [?| ->]; [by left|right].
    rewrite Hseen. apply elem_of_union_l. by apply elem_of_singleton.
  - destruct locked; split; done || eauto.
Qed.

(** X7.  The seen set covers what the service has stored: in a lifetime in
    which the writes succeed, whatever the interleaving, the seen set only
    grows, and every key the store holds was in the store when the service
    started or is in the seen set. *)
Theorem stored_keys_are_seen σ calls s :
  Forall (λ cw, cw.2 = WriteOk) calls →
  rtc step (initial σ calls) s →
  seen_upcs (self σ) ⊆ seen_upcs (self (srv s))
  ∧ ∀ k, stored k (storage (srv s)) →
         stored k (storage σ) ∨ k ∈ seen_upcs (self (srv s)).
Proof.
  intros Hw Hrun.
  apply (rtc_ind_r (R:=step)
           (λ s, seen_upcs (self σ) ⊆ seen_upcs (self (srv s))
                 ∧ ∀ k, stored k (storage (srv s)) →
                        stored k (storage σ) ∨ k ∈ seen_upcs (self (srv s)))
           (initial σ calls)); [by eauto| |done].
  intros y z Hy Hyz [IHs IHk]. destruct (saved_reachable _ _ _ Hw Hy) as [Hwy _].
  destruct Hyz as [y i t c σ' Hi Hr]. simpl.
  destruct (resume_store_seen t (srv y) c σ') as [Hsub Hkeys];
    [by eapply (Forall_lookup_1 _ _ _ _ Hwy Hi)|done|].
  split; [by etrans|]. intros k Hk.
  destruct (Hkeys k Hk) as [Hold|?]; [|by right].
  destruct (IHk k Hold) as [?|?]; [by left|right]. by apply Hsub.
Qed.

(** X8.  Every call ends.  In a lifetime that starts with the lock free, from
    any moment the calls in flight can all be run to their end (no call is
    left waiting for the lock), and a lifetime of [n] calls has at most
    [3 n] moves of the event loop. *)
Theorem every_call_ends σ calls s :
  lock (self σ) = false →
  rtc step (initial σ calls) s →
  (∃ s', rtc step s s' ∧ Forall finished (tasks s'))
  ∧ ∀ n s', nsteps step n (initial σ calls) s' → (n ≤ 3 * length calls)%nat.
Proof.
  intros Hl Hrun. split.
  - apply runs_to_end. by eapply lock_owned_reachable.
  - intros n s' Hn. apply nsteps_bound in Hn. rewrite work_initial in Hn. lia.
Qed.

Lemma any_upc_app_false k l l' :
  any_upc k l = inr false → any_upc k (l ++ l') = any_upc k l'.
Proof.
  induction l as [|b l IH]; simpl; [done|].
  destruct b; try done. destruct (eq_str _ _); [done|]. apply IH.
Qed.

(** X9.  Saving is idempotent: once the persistence step has succeeded for a
    book, running it again for that book finds the key and leaves the store
    as it is. *)
Theorem persist_twice p st st' :
  persist WriteOk p st = (inr (), st') →
  stored (upc p) st' ∧ persist WriteOk p st' = (inr (), st').
Proof.
  intros Hp.
  destruct (persist_cases _ _ _ _ Hp)
    as [(-> & [[e [=]]|[_ Hst]])|(_ & Hnot & ->)].
  - by split.
  - split; [apply stored_book|].
    revert Hp. unfold persist.
    destruct (any_upc (upc p) (load_existing_books st)) as [e|[]] eqn:Ha;
      [done| |].
    + destruct Hnot. by apply any_upc_true.
    + intros _. simpl. rewrite (any_upc_app_false _ _ _ Ha). simpl.
      unfold eq_str. simpl. by rewrite String.eqb_refl.
Qed.

(** X10.  A store that is absent, unreadable or not a list is replaced: the
    first record saved becomes the whole content of the store, whatever the
    file held. *)
Theorem odd_store_is_replaced p st :
  (∀ data, st ≠ Content (JList data)) →
  persist WriteOk p st = (inr (), Content (JList [json_of_book p])).
Proof.
  intros Hst. unfold persist.
  assert (load_existing_books st = []) as ->.
  { destruct st as [| |[]]; try done. by destruct (Hst l). }
  done.
Qed.

End service_extras.

(** * More about the retry wrappers *)

Section retry_extras.
Context {W A : Type}.
Variable sleep : Q → W → W.
Variable operation : W → (exn + A) * W.
Variable caught : exn → bool.
Variable base_delay : Q.

Lemma range_nonpositive retries : retries ≤ 0 → range retries = [].
Proof.
  intros H. unfold range. by replace (Z.to_nat retries) with 0%nat by lia.
Qed.

(** An operation that fails with the same caught exception and leaves the
    world as it is, as long as the waits leave it too, is retried over and
    over. *)
Lemma retried_constant e w k n :
  operation w = (inl e, w) → caught e = true → (∀ d, sleep d w = w) →
  retried sleep operation caught base_delay k w (replicate n e) w.
Proof.
  intros Hop Hc Hs. revert k. induction n as [|n IH]; intros k; simpl.
  - apply retried_nil.
  - eapply retried_cons; [exact Hop|exact Hc|]. rewrite Hs. apply IH.
Qed.

Lemma retry_loop_constant e w retries :
  operation w = (inl e, w) → caught e = true → (∀ d, sleep d w = w) →
  1 ≤ retries → retries ≤ 1025 →
  ∃ tr,
    retry_loop sleep operation caught (range retries) None retries
               base_delay w = (inl e, w, tr)
    ∧ invocations tr = Z.to_nat retries.
Proof.
  intros Hop Hc Hs Hr Hlow.
  pose proof (retry_loop_exhausted sleep operation caught base_delay retries
                (replicate (Z.to_nat retries - 1) e) 0 None w w e w
                (retried_constant e w _ _ Hop Hc Hs) Hop Hc) as H.
  rewrite length_replicate in H. unfold range.
  replace (S (Z.to_nat retries - 1)) with (Z.to_nat retries) in H by lia.
  rewrite H by lia. eexists. split; [done|].
  rewrite invocations_expected. lia.
Qed.

End retry_extras.

Section retry_edges.
Context `{RT : Runtime} {W : Type}.
Variable fetch_text : string → W → (exn + soup) * W.
Variable stub_ParseBook : soup → W → (exn + Book) * W.
Variable sleep : Q → W → W.

(** X11.  Without a budget nothing is attempted: with [retries <= 0] neither
    wrapper invokes its operation or sleeps, and instead of an answer or the
    error of the operation the caller gets a [TypeError], [raise None]. *)
Theorem retry_without_budget url html retries base_delay w :
  retries ≤ 0 →
  fetch_text_with_retry fetch_text sleep url retries base_delay w
  = (inl (TypeError "exceptions must derive from BaseException"), w, [])
  ∧ parse_book_with_retry stub_ParseBook sleep html retries base_delay w
    = (inl (TypeError "exceptions must derive from BaseException"), w, []).
Proof.
  intros H. unfold fetch_text_with_retry, parse_book_with_retry.
  by rewrite range_nonpositive.
Qed.

(** X12.  A cancellation is not retried: an exception of the fetch that is
    not an [Exception] leaves [fetch_text_with_retry] at once, after a
    single invocation and without a wait. *)
Theorem cancellation_is_not_retried url retries base_delay w e w1 :
  fetch_text url w = (inl e, w1) →
  is_Exception e = false →
  1 ≤ retries →
  fetch_text_with_retry fetch_text sleep url retries base_delay w
  = (inl e, w1, [Invoke])
  ∧ e = CancelledError.
Proof.
  intros Hop He Hr. unfold fetch_text_with_retry.
  rewrite range_cons by lia.
  rewrite (retry_loop_uncaught _ _ _ _ _ _ _ _ _ _ _ Hop He).
  split; [done|]. by destruct e.
Qed.


End retry_edges.

Section retry_on_service.
Context `{RT : Runtime}.
Variable sleep : Q → server → server.
Hypothesis sleep_idle : ∀ d σ, sleep d σ = σ.


Lemma remote_duplicate html p σ :
  lock (self σ) = false →
  parse_product_page html = inr p →
  upc p ∈ seen_upcs (self σ) →
  remote_ParseBook html σ
  = (inl (AioRpcError ALREADY_EXISTS "Duplicate UPC"), σ).
Proof.
  intros Hl Hp Hin. unfold remote_ParseBook.
  pose proof (call_cases WriteOk html σ Hl) as H. rewrite Hp in H.
  case_decide; [|done]. by rewrite H.
Qed.

Lemma remote_invalid html e σ :
  lock (self σ) = false →
  parse_product_page html = inl e →
  is_Exception e = true →
  remote_ParseBook html σ
  = (inl (AioRpcError INVALID_ARGUMENT (str_exn e)), σ).
Proof.
  intros Hl Hp He. unfold remote_ParseBook.
  pose proof (call_cases WriteOk html σ Hl) as H. rewrite Hp in H.
  rewrite H. unfold reported. by rewrite He.
Qed.


End retry_on_service.

(** * More about the walk over the catalogue *)

Section walk_extras.
Context `{RT : Runtime} {W : Type}.
Variable fetch_text : string → W → (exn + soup) * W.
Variable sleep : Q → W → W.

Local Abbreviation loop := (collect_loop fetch_text sleep).
Local Abbreviation visited := (visits fetch_text sleep).
Local Abbreviation fetched := (fetch_text_with_retry fetch_text sleep).

Lemma invocations_app tr1 tr2 :
  invocations (tr1 ++ tr2) = (invocations tr1 + invocations tr2)%nat.
Proof. unfold invocations. by rewrite List.filter_app, length_app. Qed.

Lemma fetched_invocations url w r w' tr :
  fetched url 3 (1 # 2) w = (r, w', tr) → (invocations tr ≤ 3)%nat.
Proof.
  intros H. apply retry_loop_invocations in H. by rewrite length_range in H.
Qed.

Lemma collect_loop_requests fuel max_pages st w r w' tr :
  loop fuel max_pages st w = Some (r, w', tr) →
  (invocations tr ≤ 3 * Z.to_nat (max_pages - pages st))%nat.
Proof.
  revert st w r w' tr.
  induction fuel as [|fuel IH]; intros st w r w' tr; simpl.
  - destruct (truthy_opt (current_url st) && (pages st <? max_pages));
      [done|]. intros [= _ _ <-]. unfold invocations. simpl. lia.
  - destruct (truthy_opt (current_url st)); simpl;
      [|intros [= _ _ <-]; unfold invocations; simpl; lia].
    destruct (pages st <? max_pages) eqn:Hp;
      [|intros [= _ _ <-]; unfold invocations; simpl; lia].
    apply Z.ltb_lt in Hp.
    destruct (fetch_text_with_retry _ _ _ _ _ _) as [[[e|html] w1] tr1] eqn:Hf;
      apply fetched_invocations in Hf.
    { intros [= _ _ <-]. lia. }
    destruct (parse_listing_page_with_next _ _) as [e|[books next]].
    { intros [= _ _ <-]. lia. }
    destruct (loop fuel max_pages _ w1) as [[[r2 w2] tr2]|] eqn:Hl; [|done].
    intros [= _ _ <-]. apply IH in Hl. simpl in Hl.
    rewrite invocations_app.
    replace (max_pages - (pages st + 1)) with (max_pages - pages st - 1)
      in Hl by lia.
    lia.
Qed.

(** X14.  The walk costs at most three requests per page under the ceiling:
    whatever the site answers, [collect_all_books_from_catalog] invokes
    [fetch_text] at most [3 * max_pages] times. *)
Theorem walk_request_bound start_url max_pages w r w' tr :
  collect_all_books_from_catalog fetch_text sleep start_url max_pages w
  = Some (r, w', tr) →
  (invocations tr ≤ 3 * Z.to_nat max_pages)%nat.
Proof.
  unfold collect_all_books_from_catalog.
  destruct (loop _ _ _ _) as [[[[e|st] w1] tr1]|] eqn:Hl; [| |done];
    intros [= _ _ <-]; apply collect_loop_requests in Hl; simpl in Hl;
    by rewrite Z.sub_0_r in Hl.
Qed.

(** X15.  With nothing to do the walk touches nothing: a ceiling that is not
    positive, or an empty start URL, gives the empty list without a single
    request. *)
Theorem walk_nothing_to_do start_url max_pages w :
  max_pages ≤ 0 ∨ start_url = "" →
  collect_all_books_from_catalog fetch_text sleep start_url max_pages w
  = Some (inr [], w, []).
Proof.
  intros H. unfold collect_all_books_from_catalog.
  assert (truthy_opt (current_url (crawl_start start_url))
          && (pages (crawl_start start_url) <? max_pages) = false) as Hc.
  { destruct H as [H| ->]; [|done]. apply andb_false_iff. right.
    apply Z.ltb_ge. simpl. lia. }
  destruct (Z.to_nat max_pages); simpl loop; simpl in Hc; by rewrite Hc.
Qed.

(** A walk whose next page cannot be fetched or read ends in that failure. *)
Lemma collect_loop_fails fuel max_pages st w n books url w1 r w2 tr e :
  (Z.to_nat (max_pages - pages st) ≤ fuel)%nat →
  visited w (current_url st) n books (Some url) w1 →
  truthy url = true →
  pages st + Z.of_nat n < max_pages →
  fetched url 3 (1 # 2) w1 = (r, w2, tr) →
  match r with
  | inl e' => e' = e
  | inr html => parse_listing_page_with_next html url = inl e
  end →
  ∃ tr', loop fuel max_pages st w = Some (inl e, w2, tr').
Proof.
  intros Hfuel Hv Hu Hn Hf Hr. revert Hfuel Hn Hf.
  remember (current_url st) as cur eqn:Hcur. revert st Hcur fuel.
  remember (Some url) as last eqn:Hlast.
  induction Hv as [w url0|w url0 html w1' tr0 books next n more last w3
                     Hu0 Hf0 Hp0 Hv IH]; intros st Hcur fuel Hfuel Hn Hf.
  - subst url0. destruct fuel as [|fuel]; [lia|]. simpl.
    rewrite <- Hcur. simpl. rewrite Hu.
    assert ((pages st <? max_pages) = true) as -> by (apply Z.ltb_lt; lia).
    simpl. rewrite Hf. destruct r as [e'|html]; [subst e'; by eexists|].
    rewrite Hr. by eexists.
  - destruct fuel as [|fuel]; [lia|]. simpl.
    rewrite <- Hcur. simpl. rewrite Hu0.
    assert ((pages st <? max_pages) = true) as -> by (apply Z.ltb_lt; lia).
    simpl. rewrite Hf0, Hp0.
    destruct (IH Hlast
                {| all_books := all_books st ++ books; current_url := next;
                   pages := pages st + 1 |} eq_refl fuel)
      as [tr' ->]; [simpl; lia|simpl; lia|done|]. by eexists.
Qed.

(** X16.  The walk is all or nothing.  When, after any number of pages read,
    the next page under the ceiling cannot be fetched (its three attempts
    fail) or cannot be read, [collect_all_books_from_catalog] raises that
    exception: the entries of the pages read before are not returned. *)
Theorem walk_propagates_failure start_url max_pages w n books url w1 r w2 tr e :
  visited w (Some start_url) n books (Some url) w1 →
  truthy url = true →
  Z.of_nat n < max_pages →
  fetched url 3 (1 # 2) w1 = (r, w2, tr) →
  match r with
  | inl e' => e' = e
  | inr html => parse_listing_page_with_next html url = inl e
  end →
  ∃ tr',
    collect_all_books_from_catalog fetch_text sleep start_url max_pages w
    = Some (inl e, w2, tr').
Proof.
  intros Hv Hu Hn Hf Hr. unfold collect_all_books_from_catalog.
  destruct (collect_loop_fails (Z.to_nat max_pages) max_pages
              (crawl_start start_url) w n books url w1 r w2 tr e)
    as [tr' ->]; simpl; try done; try lia.
  by eexists.
Qed.

End walk_extras.

(** * More about the merge into the output file *)

Section merge_extras.
Context `{RT : Runtime}.

Lemma key_in_existing_keys k l : key_in_existing k l = true ↔ k ∈ str_keys l.
Proof.
  unfold key_in_existing, str_keys. rewrite existsb_exists, list_elem_of_omap.
  split; intros (item & Hin & Hk); exists item;
    (split; [by apply list_elem_of_In|]); destruct item; try done.
  - apply eq_str_true in Hk. simpl. by rewrite Hk.
  - simpl in Hk. destruct (dict_get d "upc") as [[]|] eqn:Hd; try done.
    injection Hk as ->. by apply eq_str_true.
Qed.

Lemma str_keys_books books : str_keys (json_of_book <$> books) = upc <$> books.
Proof.
  unfold str_keys. induction books as [|r books IH]; [done|].
  simpl. f_equal. exact IH.
Qed.

Lemma appended_fresh existing earlier fresh r :
  r ∈ appended existing earlier fresh →
  r ∈ fresh
  ∧ key_in_existing (upc r) existing = false
  ∧ key_in_earlier (upc r) earlier = false.
Proof.
  revert earlier. induction fresh as [|r' fresh IH]; intros earlier; simpl.
  { by intros ?%not_elem_of_nil. }
  destruct (key_in_existing (upc r') existing
            || key_in_earlier (upc r') earlier) eqn:Hk.
  - intros (Hin & He & Hl)%IH. rewrite key_in_earlier_app in Hl.
    apply orb_false_iff in Hl as [Hl _].
    split; [by apply list_elem_of_further|done].
  - intros [->|(Hin & He & Hl)%IH]%elem_of_cons.
    + apply orb_false_iff in Hk as [? ?].
      split; [by apply list_elem_of_here|done].
    + rewrite key_in_earlier_app in Hl. apply orb_false_iff in Hl as [Hl _].
      split; [by apply list_elem_of_further|done].
Qed.

Lemma appended_NoDup existing earlier fresh :
  NoDup (upc <$> appended existing earlier fresh).
Proof.
  revert earlier. induction fresh as [|r fresh IH]; intros earlier; simpl.
  { constructor. }
  destruct (key_in_existing (upc r) existing
            || key_in_earlier (upc r) earlier); [apply IH|].
  simpl. constructor; [|apply IH].
  intros (r' & Hu & (_ & _ & Hl)%appended_fresh)%list_elem_of_fmap.
  rewrite key_in_earlier_app, Hu, String.eqb_refl, orb_true_r in Hl. done.
Qed.

Lemma existing_upcs_unhashable existing :
  hashable_upcs existing = false →
  ∃ msg, existing_upcs existing = inl (TypeError msg).
Proof.
  induction existing as [|item existing IH]; simpl; [done|].
  intros [Hi|[msg Hk]%IH]%andb_false_iff.
  - destruct item; try done.
    destruct (dict_get d "upc") as [v|]; [|done]. rewrite Hi. by eexists.
  - destruct item; eauto. rewrite Hk.
    destruct (dict_get d "upc") as [v|]; simpl; [|by eexists].
    destruct (hashable v); by eexists.
Qed.

Lemma merge_keys_NoDup existing fresh combined :
  merge existing fresh = inr combined →
  NoDup (str_keys existing) →
  NoDup (str_keys combined).
Proof.
  intros [_ ->]%merge_inr Hnd.
  unfold str_keys. rewrite omap_app. fold (str_keys existing).
  fold (str_keys (json_of_book <$> appended existing [] fresh)).
  rewrite str_keys_books. apply NoDup_app. split; [done|].
  split; [|apply appended_NoDup].
  intros k Hk (r & -> & (_ & He & _)%appended_fresh)%list_elem_of_fmap.
  apply key_in_existing_keys in Hk. congruence.
Qed.

(** X17.  The merge keeps the keys of the output pairwise distinct: when the
    string keys of the existing items are, so are those of the combined
    list, even if the fresh records repeat a key among themselves or repeat
    an existing one; and nothing but fresh records is added. *)
Theorem merge_keeps_keys_unique existing fresh combined :
  merge existing fresh = inr combined →
  NoDup (str_keys existing) →
  NoDup (str_keys combined)
  ∧ ∃ added, combined = existing ++ (json_of_book <$> added)
             ∧ added ⊆ fresh.
Proof.
  intros Hm Hnd. split; [by eapply merge_keys_NoDup|].
  apply merge_inr in Hm as [_ ->].
  eexists. split; [done|]. intros r Hr. by apply appended_fresh in Hr as [? _].
Qed.

(** X18.  One item with a list or an object as its [upc] blocks the output
    file: the set of existing keys cannot be built, so every run ends in a
    [TypeError] before the file is written, whatever was scraped, and the
    file stays as it is. *)
Theorem unhashable_key_blocks_output w existing fresh :
  hashable_upcs existing = false →
  ∃ msg,
    merge existing fresh = inl (TypeError msg)
    ∧ update_output w fresh (Content (JList existing))
      = (inl (TypeError msg), Content (JList existing)).
Proof.
  intros [msg Hk]%existing_upcs_unhashable. exists msg.
  assert (merge existing fresh = inl (TypeError msg)) as Hm
    by (unfold merge; by rewrite Hk).
  split; [done|]. unfold update_output. simpl. by rewrite Hm.
Qed.

End merge_extras.

(** * More about the batches *)

Section batch_extras.
Context {W C R : Type}.
Variable gather : list C → W → list R * W.
Variable P : C → R → Prop.

Lemma gather_batches_aligned coros batch_size m a results w :
  0 < batch_size →
  (∀ batch w, batch ≠ [] → (length batch ≤ Z.to_nat batch_size)%nat →
              Forall2 P batch (gather batch w).1) →
  ((a + m) * Z.to_nat batch_size < length coros + Z.to_nat batch_size)%nat →
  ∃ rs w',
    gather_batches gather ((λ k, Z.of_nat k * batch_size) <$> seq a m)
                   coros batch_size results w
    = (results ++ rs, w')
    ∧ Forall2 P (take (m * Z.to_nat batch_size)
                      (drop (a * Z.to_nat batch_size) coros)) rs.
Proof.
  intros Hs Hg. revert a results w.
  induction m as [|m IH]; intros a results w Hm.
  { exists [], w. simpl. rewrite app_nil_r. split; [done|constructor]. }
  change (seq a (S m)) with (a :: seq (S a) m).
  rewrite fmap_cons. cbn [gather_batches]. unfold slice.
  replace (Z.to_nat (Z.of_nat a * batch_size + batch_size
                     - Z.of_nat a * batch_size))
    with (Z.to_nat batch_size) by lia.
  replace (Z.to_nat (Z.of_nat a * batch_size))
    with (a * Z.to_nat batch_size)%nat by lia.
  set (sn := Z.to_nat batch_size) in *.
  set (batch := take sn (drop (a * sn) coros)).
  assert ((0 < sn)%nat) as Hsn by (unfold sn; lia).
  assert (batch ≠ [] ∧ (length batch ≤ sn)%nat) as [Hne Hle].
  { assert (length batch = (sn `min` (length coros - a * sn))%nat) as Hlen
      by (unfold batch; by rewrite length_take, length_drop).
    split; [|lia]. intros Hnil. rewrite Hnil in Hlen. simpl in Hlen. nia. }
  pose proof (Hg batch w Hne Hle) as Hb.
  destruct (gather batch w) as [brs w1]. simpl in Hb.
  destruct (IH (S a) (results ++ brs) w1) as (rs & w' & -> & Hrs); [lia|].
  exists (brs ++ rs), w'. split; [by rewrite app_assoc|].
  rewrite <- (take_take_drop _ sn (m * sn)). apply Forall2_app; [done|].
  rewrite drop_drop. by replace (a * sn + sn)%nat with (S a * sn)%nat by lia.
Qed.

(** X19.  Batching keeps the results in step with the coroutines.  For a
    positive batch size, [gather] is only ever given batches that are not
    empty and hold at most [batch_size] coroutines, and whatever each
    gathering guarantees between a coroutine and its result holds between
    the whole list of coroutines and the list returned, position by position;
    in particular there is one result per coroutine. *)
Theorem gather_in_batches_aligned coros batch_size w :
  0 < batch_size →
  (∀ batch w, batch ≠ [] → (length batch ≤ Z.to_nat batch_size)%nat →
              Forall2 P batch (gather batch w).1) →
  ∃ results w',
    gather_in_batches gather coros batch_size w = (inr results, w')
    ∧ Forall2 P coros results
    ∧ length results = length coros.
Proof.
  intros Hs Hg. unfold gather_in_batches, range_step.
  assert ((batch_size =? 0) = false) as -> by (apply Z.eqb_neq; lia).
  assert ((batch_size <? 0) = false) as -> by (apply Z.ltb_ge; lia).
  set (n := Z.of_nat (length coros)).
  set (q := (n + batch_size - 1) / batch_size).
  assert (batch_size * q ≤ n + batch_size - 1) as Hlo
    by (apply Z.mul_div_le; lia).
  assert (n + batch_size - 1 < batch_size * Z.succ q) as Hhi
    by (apply Z.mul_succ_div_gt; lia).
  assert (0 ≤ q) as Hq by (apply Z.div_pos; lia).
  assert (Z.of_nat (Z.to_nat q * Z.to_nat batch_size) = q * batch_size) as Hmul
    by (rewrite Nat2Z.inj_mul, !Z2Nat.id; lia).
  destruct (gather_batches_aligned coros batch_size (Z.to_nat q) 0 [] w Hs Hg)
    as (rs & w' & -> & Hrs); [simpl; lia|].
  exists rs, w'. rewrite Nat.mul_0_l, drop_0 in Hrs.
  rewrite take_ge in Hrs by (unfold n in *; lia).
  split; [done|]. split; [done|]. symmetry. by eapply Forall2_length.
Qed.

(** X20.  A batch size that is not positive loses the work: with 0 the call
    raises a [ValueError], with a negative size it returns no result at all;
    either way no coroutine is gathered, however many there are. *)
Theorem gather_in_batches_bad_size coros batch_size w :
  batch_size ≤ 0 →
  gather_in_batches gather coros batch_size w
  = (if batch_size =? 0
     then inl (ValueError "range() arg 3 must not be zero") else inr [], w).
Proof.
  intros Hs. unfold gather_in_batches, range_step.
  destruct (batch_size =? 0) eqn:H0; [done|].
  apply Z.eqb_neq in H0.
  by assert ((batch_size <? 0) = true) as -> by (apply Z.ltb_lt; lia).
Qed.

End batch_extras.

(** * More about the pipeline *)

Section scrape_on_service.
Context `{RT : Runtime}.
Variable fetch_text : string → server → (exn + soup) * server.
Variable sleep : Q → server → server.
Hypothesis sleep_idle : ∀ d σ, sleep d σ = σ.

Local Abbreviation scrape :=
  (scrape_book_details_async fetch_text remote_ParseBook sleep).

Lemma parse_product_page_raises html e :
  parse_product_page html = inl e → ∃ msg, e = ValueError msg.
Proof.
  unfold parse_product_page.
  destruct (table_striped html); [|intros [= <-]; eauto].
  destruct (negb _); [intros [= <-]; eauto|].
  unfold parse_money.
  destruct (py_float _); simpl; [intros [= <-]; eauto|].
  destruct (py_float _); simpl; [intros [= <-]; eauto|done].
Qed.

Lemma fetched_at_once url html σ σ' retries base_delay :
  fetch_text url σ = (inr html, σ') → 1 ≤ retries →
  fetch_text_with_retry fetch_text sleep url retries base_delay σ
  = (inr html, σ', [Invoke]).
Proof.
  intros Hf Hr. unfold fetch_text_with_retry. rewrite range_cons by lia.
  cbn [retry_loop]. by rewrite Hf.
Qed.

(** X21.  A page the service rejects costs three remote calls and yields
    nothing: when the page fetched is invalid, or its key is in the seen set,
    [scrape_book_details_async] returns [None] after one request and three
    calls of the service, which is left as it was. *)
Theorem rejected_page_costs_three_calls url html σ :
  fetch_text url σ = (inr html, σ) →
  lock (self σ) = false →
  match parse_product_page html with
  | inl _ => True
  | inr p => upc p ∈ seen_upcs (self σ)
  end →
  ∃ tr, scrape url σ = (inr None, σ, tr) ∧ invocations tr = 4%nat.
Proof.
  intros Hf Hl Hp.
  assert (∃ e, remote_ParseBook html σ = (inl e, σ)
               ∧ is_AioRpcError e = true) as (e & Hop & He).
  { destruct (parse_product_page html) as [e|p] eqn:Hparse.
    - destruct (parse_product_page_raises _ _ Hparse) as [msg ->].
      eexists. split; [by apply remote_invalid|done].
    - eexists. split; [by eapply remote_duplicate|done]. }
  destruct (retry_loop_constant sleep (remote_ParseBook html) is_AioRpcError
              (1 # 2) e σ 3 Hop He) as (tr & Htr & Hinv);
    [intros d; apply sleep_idle|lia|lia|].
  unfold scrape_book_details_async.
  rewrite (fetched_at_once url html σ σ) by (done || lia).
  unfold parse_book_with_retry. rewrite Htr, He.
  eexists. split; [done|]. by rewrite invocations_app, Hinv.
Qed.

(** X22.  A fresh valid page is scraped with one request and one call: when
    the key of the page is not in the seen set and the store can be searched,
    [scrape_book_details_async] returns the record parsed from the page, the
    key joins the seen set, and the record is appended to the store unless
    the store holds its key already. *)
Theorem fresh_page_is_scraped_once url html σ p b :
  fetch_text url σ = (inr html, σ) →
  lock (self σ) = false →
  parse_product_page html = inr p →
  upc p ∉ seen_upcs (self σ) →
  any_upc (upc p) (load_existing_books (storage σ)) = inr b →
  scrape url σ
  = (inr (Some p),
     {| self := {| lock := false;
                   seen_upcs := {[upc p]} ∪ seen_upcs (self σ) |};
        storage :=
          if b then storage σ
          else Content (JList (load_existing_books (storage σ)
                               ++ [json_of_book p])) |},
     [Invoke; Invoke]).
Proof.
  intros Hf Hl Hp Hk Ha. unfold scrape_book_details_async.
  rewrite (fetched_at_once url html σ σ) by (done || lia).
  unfold parse_book_with_retry. rewrite range_cons by lia.
  cbn [retry_loop]. unfold remote_ParseBook.
  pose proof (call_cases WriteOk html σ Hl) as H. rewrite Hp in H.
  case_decide; [done|]. destruct H as (r & st & Hpers & ->).
  revert Hpers. unfold persist. rewrite Ha.
  destruct b; simpl; by intros [= <- <-].
Qed.

End scrape_on_service.

Section main_extras.
Context `{RT : Runtime} {W : Type}.
Variable fetch_text : string → W → (exn + soup) * W.
Variable sleep : Q → W → W.
Variable gather : list string → W → list (exn + option Book) * W.

Lemma final_items_elem pairs items b :
  final_items pairs = inr items → b ∈ items →
  ∃ entry, (entry, inr (Some b)) ∈ pairs.
Proof.
  revert items. induction pairs as [|[entry [e|[d|]]] pairs IH];
    intros items; simpl.
  - intros [= <-] ?%not_elem_of_nil. done.
  - destruct (is_Exception e); [|done]. intros H Hb.
    destruct (IH _ H Hb) as [x Hx]. exists x. by apply list_elem_of_further.
  - destruct (final_items pairs) as [e|items'] eqn:Hf; [done|]. simpl.
    intros [= <-] [->|Hb]%elem_of_cons.
    + exists entry. apply list_elem_of_here.
    + destruct (IH _ eq_refl Hb) as [x Hx]. exists x.
      by apply list_elem_of_further.
  - intros H Hb. destruct (IH _ H Hb) as [x Hx]. exists x.
    by apply list_elem_of_further.
Qed.

(** X23.  A run that fails does not touch the output file: when [main]
    raises, the file is as it was before the run, unless it is the write of
    the file itself that raised. *)
Theorem failed_run_keeps_output w_out output w e output' w' :
  main fetch_text sleep gather w_out output w = Some (inl e, output', w') →
  output' = output
  ∨ ∃ remains, w_out = WriteRaises e remains ∧ output' = remains.
Proof.
  unfold main. destruct BASE_CATALOGUE as [msg|start_url].
  { intros [= _ <- _]. by left. }
  destruct (collect_all_books_from_catalog _ _ _ _ _)
    as [[[[e1|books] w1] tr]|]; [by intros [= _ <- _]; left| |done].
  destruct (gather_in_batches _ _ _ _) as [[e2|details] w2];
    [by intros [= _ <- _]; left|].
  destruct (final_items _) as [e3|items]; [by intros [= _ <- _]; left|].
  unfold update_output.
  destruct (merge _ _) as [e4|combined]; [by intros [= _ <- _]; left|].
  unfold create_json_file. destruct w_out as [|e5 remains]; [done|].
  intros [= <- <- _]. right. by eexists.
Qed.

(** X24.  A run that succeeds only appends: the output file then holds the
    items it held before, in their order, followed by records that the
    gathering returned for entries of the catalogue; no two of its string
    keys are equal if that was so before. *)
Theorem successful_run_appends w_out output w output' w' :
  main fetch_text sleep gather w_out output w = Some (inr (), output', w') →
  ∃ start_url books w1 tr details added,
    BASE_CATALOGUE = inr start_url
    ∧ collect_all_books_from_catalog fetch_text sleep start_url 200 w
      = Some (inr books, w1, tr)
    ∧ gather_in_batches gather (book_url <$> books) 100 w1
      = (inr details, w')
    ∧ output' = Content (JList (load_existing_items output
                                ++ (json_of_book <$> added)))
    ∧ (∀ b, b ∈ added → inr (Some b) ∈ details)
    ∧ (NoDup (str_keys (load_existing_items output)) →
       NoDup (str_keys (load_existing_items output'))).
Proof.
  unfold main. destruct BASE_CATALOGUE as [msg|start_url]; [done|].
  destruct (collect_all_books_from_catalog _ _ _ _ _)
    as [[[[e1|books] w1] tr]|] eqn:Hwalk; [done| |done].
  destruct (gather_in_batches _ _ _ _) as [[e2|details] w2] eqn:Hg; [done|].
  destruct (final_items _) as [e3|items] eqn:Hitems; [done|].
  unfold update_output.
  destruct (merge _ _) as [e4|combined] eqn:Hm; [done|].
  unfold create_json_file. destruct w_out as [|e5 remains]; [|done].
  intros [= <- <-].
  assert (∀ b, b ∈ items → inr (Some b) ∈ details) as Hin.
  { intros b Hb. destruct (final_items_elem _ _ _ Hitems Hb) as [entry Hz].
    by apply elem_of_zip_r in Hz. }
  pose proof (merge_inr _ _ _ Hm) as [_ Hc].
  exists start_url, books, w1, tr, details, (appended (load_existing_items output) [] items).
  split_and!; try done.
  - by rewrite Hc.
  - intros b Hb. apply Hin. by apply appended_fresh in Hb as [? _].
  - intros Hnd. simpl.
    exact (merge_keys_NoDup _ _ _ Hm Hnd).
Qed.

End main_extras.

(** * The additional properties at samples *)

Section extra_samples.
Import Sample Fixtures.

Ltac computed :=
  lazymatch goal with
  | |- _ = ?rhs => vm_cast_no_check (@eq_refl _ rhs)
  end.

(** X1 at a sample: the first detail page. *)
Lemma parsed_record_is_complete_witness :
  ∃ rows price_text tax_text,
    table_striped attic = Some rows
    ∧ product_main_h1 attic = Some (name attic_book) ∧ name attic_book ≠ ""
    ∧ instock_availability attic = Some (availability attic_book)
    ∧ availability attic_book ≠ ""
    ∧ table_info rows !! "UPC" = Some (upc attic_book) ∧ upc attic_book ≠ ""
    ∧ table_info rows !! "Price (excl. tax)" = Some price_text
    ∧ parse_money price_text = inr (price_excl_tax attic_book)
    ∧ table_info rows !! "Tax" = Some tax_text
    ∧ parse_money tax_text = inr (tax attic_book).
Proof. apply (parsed_record_is_complete attic attic_book). computed. Defined.

(** X2 at a sample: a detail page whose table has no price row. *)
Lemma missing_fields_reported_witness :
  ∃ missing,
    parse_product_page no_price
    = inl (ValueError ("Missing required fields: " +:+ repr_list missing))
    ∧ missing ≠ []
    ∧ ∀ k, k ∈ ["UPC"; "Price (excl. tax)"; "Tax"] →
        (k ∈ missing
         ↔ default "" (table_info
                         [ {| row_th := Some "UPC";
                              row_td := Some "a897fe39b1053632" |};
                           {| row_th := Some "Tax"; row_td := Some "£0.00" |} ]
                       !! k) = "").
Proof.
  apply (missing_fields_reported no_price).
  - reflexivity.
  - right. right. right. left. computed.
Defined.

(** X4 at a sample: a page without its table, and the first page submitted again. *)
Lemma rejected_call_changes_nothing_witness :
  call WriteOk no_table (started NoFile)
  = Some (reported (ValueError "Product information table not found"),
          started NoFile)
  ∧ call WriteOk attic after_attic
    = Some (Failed ALREADY_EXISTS "Duplicate UPC", after_attic).
Proof.
  split.
  - destruct (rejected_call_changes_nothing WriteOk no_table (started NoFile))
      as [H _]; [reflexivity|].
    apply H. reflexivity.
  - destruct (rejected_call_changes_nothing WriteOk attic after_attic)
      as [_ H]; [reflexivity|].
    apply (H attic_book); [computed|].
    apply elem_of_union_l, elem_of_singleton. reflexivity.
Defined.

(** X5 at a sample: the first page submitted to a service that has just started. *)
Lemma accepted_call_records_key_witness :
  parse_product_page attic = inr attic_book
  ∧ (upc attic_book ∉ seen_upcs (self (started NoFile)))
  ∧ seen_upcs (self after_attic)
    = {[upc attic_book]} ∪ seen_upcs (self (started NoFile))
  ∧ lock (self after_attic) = false
  ∧ stored (upc attic_book) (storage after_attic)
  ∧ (storage after_attic = storage (started NoFile)
     ∨ (¬ stored (upc attic_book) (storage (started NoFile))
        ∧ storage after_attic
          = Content (JList (load_existing_books (storage (started NoFile))
                            ++ [json_of_book attic_book])))).
Proof.
  apply (accepted_call_records_key WriteOk attic (started NoFile)).
  - reflexivity.
  - computed.
Defined.

(** X6 at a sample: the same page submitted twice. *)
Lemma store_keys_stay_unique_witness :
  NoDup (str_keys (load_existing_books
                     (storage (srv (run [0; 1; 1]%nat
                                        (initial (started NoFile) twice)))))).
Proof.
  apply (store_keys_stay_unique (started NoFile) twice).
  - repeat constructor.
  - constructor.
  - apply run_reachable.
Defined.

(** X7 at a sample: two pages with different keys, one call after the other. *)
Lemma stored_keys_are_seen_witness :
  seen_upcs (self (started NoFile))
  ⊆ seen_upcs (self (srv (run [0; 1]%nat
                              (initial (started NoFile) two_books))))
  ∧ ∀ k, stored k (storage (srv (run [0; 1]%nat
                                     (initial (started NoFile) two_books)))) →
         stored k (storage (started NoFile))
         ∨ k ∈ seen_upcs (self (srv (run [0; 1]%nat
                                        (initial (started NoFile) two_books)))).
Proof.
  apply (stored_keys_are_seen (started NoFile) two_books).
  - repeat constructor.
  - apply run_reachable.
Defined.

(** X8 at a sample: the same page submitted twice, after one move. *)
Lemma every_call_ends_witness :
  (∃ s', rtc step (run [0]%nat (initial (started NoFile) twice)) s'
         ∧ Forall finished (tasks s'))
  ∧ ∀ n s', nsteps step n (initial (started NoFile) twice) s' →
            (n ≤ 3 * length twice)%nat.
Proof.
  apply (every_call_ends (started NoFile) twice).
  - reflexivity.
  - apply run_reachable.
Defined.

(** X9 at a sample: the first record saved to a store that did not exist. *)
Lemma persist_twice_witness :
  stored (upc attic_book) (Content (JList [json_of_book attic_book]))
  ∧ persist WriteOk attic_book (Content (JList [json_of_book attic_book]))
    = (inr (), Content (JList [json_of_book attic_book])).
Proof. apply (persist_twice attic_book NoFile). reflexivity. Defined.

(** X10 at a sample: a store file that holds a number. *)
Lemma odd_store_is_replaced_witness :
  persist WriteOk attic_book (Content (JInt 5))
  = (inr (), Content (JList [json_of_book attic_book])).
Proof.
  apply (odd_store_is_replaced attic_book (Content (JInt 5))).
  intros data. discriminate.
Defined.

(** X11 at a sample: a budget of zero attempts. *)
Lemma retry_without_budget_witness :
  fetch_text_with_retry site still "https://books.toscrape.com/" 0 (1 # 2)
                        (started NoFile)
  = (inl (TypeError "exceptions must derive from BaseException"),
     started NoFile, [])
  ∧ parse_book_with_retry remote_ParseBook still attic 0 (1 # 2)
                          (started NoFile)
    = (inl (TypeError "exceptions must derive from BaseException"),
       started NoFile, []).
Proof. apply (retry_without_budget site remote_ParseBook still). lia. Defined.


(** X12 at a sample: a transport that is cancelled. *)
Lemma cancellation_is_not_retried_witness :
  fetch_text_with_retry cancelled still "https://books.toscrape.com/" 3
                        (1 # 2) 0%nat
  = (inl CancelledError, 1%nat, [Invoke])
  ∧ CancelledError = CancelledError.
Proof.
  apply (cancellation_is_not_retried cancelled still).
  - reflexivity.
  - reflexivity.
  - lia.
Defined.


(** X14 at a sample: the sample catalogue under a ceiling of three. *)
Lemma walk_request_bound_witness :
  (invocations [Invoke; Invoke; Invoke] ≤ 3 * Z.to_nat 3)%nat.
Proof.
  eapply (walk_request_bound catalogue still (page_url "1") 3 tt _ _
            [Invoke; Invoke; Invoke]).
  vm_compute. reflexivity.
Defined.

(** X15 at a sample: a ceiling of zero. *)
Lemma walk_nothing_to_do_witness :
  collect_all_books_from_catalog catalogue still (page_url "1") 0 tt
  = Some (inr [], tt, []).
Proof.
  apply (walk_nothing_to_do catalogue still (page_url "1") 0 tt).
  left. lia.
Defined.

(** X16 at a sample: a site whose second listing page is down: the entry of the first page is lost. *)
Lemma walk_propagates_failure_witness :
  ∃ tr',
    collect_all_books_from_catalog broken still (page_url "1") 200 0%nat
    = Some (inl (ClientError "503, Service Unavailable"), 4%nat, tr').
Proof.
  eapply (walk_propagates_failure broken still (page_url "1") 200 0%nat
            1 _ (page_url "2") 1%nat (inl _) 4%nat).
  - eapply visits_page;
      [reflexivity|vm_compute; reflexivity|vm_compute; reflexivity|].
    apply visits_none.
  - reflexivity.
  - lia.
  - vm_compute. reflexivity.
  - reflexivity.
Defined.

(** X17 at a sample: fresh records that repeat a key and an existing record. *)
Lemma merge_keeps_keys_unique_witness :
  NoDup (str_keys [json_of_book attic_book; json_of_book (keyed "A")])
  ∧ ∃ added,
      [json_of_book attic_book; json_of_book (keyed "A")]
      = [json_of_book attic_book] ++ (json_of_book <$> added)
      ∧ added ⊆ [keyed "A"; keyed "A"; attic_book].
Proof.
  apply (merge_keeps_keys_unique [json_of_book attic_book]
           [keyed "A"; keyed "A"; attic_book]).
  - reflexivity.
  - apply NoDup_singleton.
Defined.

(** X18 at a sample: an output whose only item has a list as its key. *)
Lemma unhashable_key_blocks_output_witness :
  ∃ msg,
    merge list_keyed [attic_book] = inl (TypeError msg)
    ∧ update_output WriteOk [attic_book] (Content (JList list_keyed))
      = (inl (TypeError msg), Content (JList list_keyed)).
Proof.
  apply (unhashable_key_blocks_output WriteOk list_keyed [attic_book]).
  reflexivity.
Defined.

(** X19 at a sample: five coroutines in batches of two. *)
Lemma gather_in_batches_aligned_witness :
  ∃ results w',
    gather_in_batches echo [1; 2; 3; 4; 5]%nat 2 tt = (inr results, w')
    ∧ Forall2 eq [1; 2; 3; 4; 5]%nat results
    ∧ length results = length [1; 2; 3; 4; 5]%nat.
Proof.
  apply (gather_in_batches_aligned echo eq).
  - lia.
  - intros batch w _ _. simpl. induction batch; constructor; auto.
Defined.

(** X20 at a sample: a batch size of zero. *)
Lemma gather_in_batches_bad_size_witness :
  gather_in_batches echo [1; 2; 3]%nat 0 tt
  = (if 0 =? 0
     then inl (ValueError "range() arg 3 must not be zero") else inr [], tt).
Proof. apply (gather_in_batches_bad_size echo). lia. Defined.

(** X21 at a sample: the first page scraped again. *)
Lemma rejected_page_costs_three_calls_witness :
  ∃ tr,
    scrape_book_details_async site remote_ParseBook still
      "https://books.toscrape.com/catalogue/a-light-in-the-attic_1000/index.html"
      after_attic
    = (inr None, after_attic, tr)
    ∧ invocations tr = 4%nat.
Proof.
  apply (rejected_page_costs_three_calls site still (λ d σ, eq_refl) _ attic).
  - computed.
  - reflexivity.
  - replace (parse_product_page attic) with (@inr exn _ attic_book)
      by (symmetry; computed).
    apply elem_of_union_l, elem_of_singleton. reflexivity.
Defined.

(** X22 at a sample: the first page scraped for the first time. *)
Lemma fresh_page_is_scraped_once_witness :
  scrape_book_details_async site remote_ParseBook still
    "https://books.toscrape.com/catalogue/a-light-in-the-attic_1000/index.html"
    (started NoFile)
  = (inr (Some attic_book),
     {| self := {| lock := false;
                   seen_upcs := {[upc attic_book]}
                                ∪ seen_upcs (self (started NoFile)) |};
        storage :=
          if false then storage (started NoFile)
          else Content (JList (load_existing_books (storage (started NoFile))
                               ++ [json_of_book attic_book])) |},
     [Invoke; Invoke]).
Proof.
  apply (fresh_page_is_scraped_once site still _ attic).
  - computed.
  - reflexivity.
  - computed.
  - apply not_elem_of_empty.
  - reflexivity.
Defined.

(** X23 at a sample: a site that is down. *)
Lemma failed_run_keeps_output_witness :
  one_record = one_record
  ∨ ∃ remains,
      WriteOk = WriteRaises (ClientError "503, Service Unavailable") remains
      ∧ one_record = remains.
Proof.
  eapply (failed_run_keeps_output down still idle WriteOk one_record 0%nat).
  vm_compute. reflexivity.
Defined.

(** X24 at a sample: the sample site: two of the five entries have a detail page. *)
Lemma successful_run_appends_witness :
  ∃ start_url books w1 tr details added,
    BASE_CATALOGUE = inr start_url
    ∧ collect_all_books_from_catalog site still start_url 200 (started NoFile)
      = Some (inr books, w1, tr)
    ∧ gather_in_batches one_by_one (book_url <$> books) 100 w1
      = (inr details,
         {| self := {| lock := false;
                       seen_upcs := {[upc velvet_book]}
                                    ∪ ({[upc attic_book]} ∪ ∅) |};
            storage := Content (JList [json_of_book attic_book;
                                       json_of_book velvet_book]) |})
    ∧ Content (JList [json_of_book attic_book; json_of_book velvet_book])
      = Content (JList (load_existing_items NoFile
                        ++ (json_of_book <$> added)))
    ∧ (∀ b, b ∈ added → inr (Some b) ∈ details)
    ∧ (NoDup (str_keys (load_existing_items NoFile)) →
       NoDup (str_keys (load_existing_items
                          (Content (JList [json_of_book attic_book;
                                           json_of_book velvet_book]))))).
Proof.
  apply (successful_run_appends site still one_by_one WriteOk NoFile
           (started NoFile)).
  computed.
Defined.

End extra_samples.
